(** * ProcessEEG: the filtering and band-power pipeline of [EEGVisualizer]

    A shallow embedding of [src/ProcessEEG.py].  The Python program works on
    numpy [float64] arrays; here every function is written once over a
    numeric interface ([Numeric], [Trig]) and run at two instances:

    - [float]: Rocq's primitive IEEE-754 binary64 numbers, with NaN and the
      infinities, for everything that depends on how non-finite values and
      comparisons behave (the functions compute with [vm_compute]);
    - [R]: the real numbers, the exact arithmetic that the floating-point
      program approximates, for the filter-design formulas and the response
      of the notch to pure tones.

    Library routines are modelled from their documented behaviour:
    [scipy.signal.lfilter] as the transposed direct-form II recursion
    started from rest, [scipy.signal.iirnotch] by its closed-form
    coefficients, its range test and the Python division it does,
    [scipy.signal.butter] by its range tests, [numpy.fft.rfft] by the
    defining sum of the discrete Fourier transform (its [n] argument crops
    or zero-pads), [numpy.mean] as sum over count (left to right; numpy's
    pairwise summation order is not reproduced).  The magnitude of a bin is
    taken as [sqrt (re*re + im*im)]: numpy's [hypot] after the FFT
    butterflies rounds differently and differs on non-finite values, so
    nothing is claimed here about the spectrum of a block that holds a NaN
    or an infinity beyond what [update] does with it.  The Qt widgets are
    reduced to the data handed to them.

    Contents: results and the numeric interface; numpy; scipy.signal; the
    visualizer ([__init__], [audio_callback], [update]); sample states in
    binary64 and in exact arithmetic; the per-block step and the transform
    of the fitted block; band aggregation; NaN through the step;
    filter-design validation, in exact arithmetic and in binary64;
    consecutive blocks; the response of the notch to tones; runs of
    callbacks and ticks, and the slot as a view of the capture buffer;
    further properties of the filter, the spectrum and the display. *)

From Stdlib Require Import List ZArith Bool Lia Floats Uint63 Reals Lra.
Import ListNotations.

Set Implicit Arguments.

(* ================================================================== *)
(** * Python results *)
(* ================================================================== *)

(** The exceptions a filter design can end in: [ValueError] from scipy's
    argument tests, [ZeroDivisionError] from Python's own float division. *)
Inductive exn : Type :=
| ValueError
| ZeroDivisionError.

Inductive result (T : Type) : Type :=
| Ok (v : T)
| Raise (e : exn).

Arguments Ok {T} v.
Arguments Raise {T} e.

Definition bind {T U : Type} (r : result T) (k : T -> result U) : result U :=
  match r with
  | Ok v => k v
  | Raise e => Raise e
  end.

Notation "x <- r ;; k" := (bind r (fun x => k))
  (at level 61, r at next level, right associativity).

(* ================================================================== *)
(** * The numeric interface *)
(* ================================================================== *)

(** What the program needs of its scalars.  [of_Z] is the conversion of a
    Python [int] that meets a float in an arithmetic operation. *)
Class Numeric (A : Type) : Type := {
  of_Z : Z -> A;
  nadd : A -> A -> A;
  nsub : A -> A -> A;
  nmul : A -> A -> A;
  ndiv : A -> A -> A;
  nsqrt : A -> A;
  nltb : A -> A -> bool;
  nleb : A -> A -> bool
}.

(** The transcendental functions of numpy the program reaches through
    scipy and the FFT. *)
Class Trig (A : Type) : Type := {
  np_pi : A;
  np_cos : A -> A;
  np_sin : A -> A;
  np_tan : A -> A
}.

Declare Scope num_scope.
Delimit Scope num_scope with num.
Infix "+" := nadd : num_scope.
Infix "-" := nsub : num_scope.
Infix "*" := nmul : num_scope.
Infix "/" := ndiv : num_scope.
Infix "<?" := nltb : num_scope.
Infix "<=?" := nleb : num_scope.

(** Python's [x > y] and [x >= y] on floats: the mirrored comparison (both
    are false as soon as one side is NaN). *)
Definition ngtb {A} `{Numeric A} (x y : A) : bool := nltb y x.
Definition ngeb {A} `{Numeric A} (x y : A) : bool := nleb y x.
Infix ">?" := ngtb (at level 70) : num_scope.
Infix ">=?" := ngeb (at level 70) : num_scope.

(** Python's [x == y] on floats, from the two order tests: false as soon
    as one side is NaN, true of [0.0] against [-0.0]. *)
Definition neqb {A} `{Numeric A} (x y : A) : bool := nleb x y && nleb y x.

(** Python's [x / y] on two Python floats: [ZeroDivisionError] when
    [y == 0.0].  (A division with a numpy scalar or array on one side
    follows IEEE-754 instead and is the plain [/] of the interface.) *)
Definition truediv {A} `{Numeric A} (x y : A) : result A :=
  if neqb y (of_Z 0) then Raise ZeroDivisionError else Ok (ndiv x y).

(** ** binary64 *)

Definition float_of_Z (z : Z) : float :=
  match z with
  | Z0 => PrimFloat.zero
  | Zpos _ => PrimFloat.of_uint63 (Uint63.of_Z z)
  | Zneg _ => PrimFloat.opp (PrimFloat.of_uint63 (Uint63.of_Z (Z.opp z)))
  end.

#[export] Instance float_numeric : Numeric float := {
  of_Z := float_of_Z;
  nadd := PrimFloat.add;
  nsub := PrimFloat.sub;
  nmul := PrimFloat.mul;
  ndiv := PrimFloat.div;
  nsqrt := PrimFloat.sqrt;
  nltb := PrimFloat.ltb;
  nleb := PrimFloat.leb
}.

(** [numpy.pi] as a binary64 constant; the three functions are whatever the
    platform's numpy computes, so results at [float] that involve them are
    stated for every choice. *)
Definition float_trig (c s t : float -> float) : Trig float := {|
  np_pi := 0x1.921fb54442d18p+1%float;
  np_cos := c;
  np_sin := s;
  np_tan := t
|}.

(** ** Real numbers *)

Definition Rltb (x y : R) : bool := if Rlt_dec x y then true else false.
Definition Rleb (x y : R) : bool := if Rle_dec x y then true else false.

#[export] Instance R_numeric : Numeric R := {
  of_Z := IZR;
  nadd := Rplus;
  nsub := Rminus;
  nmul := Rmult;
  ndiv := Rdiv;
  nsqrt := sqrt;
  nltb := Rltb;
  nleb := Rleb
}.

#[export] Instance R_trig : Trig R := {
  np_pi := PI;
  np_cos := cos;
  np_sin := sin;
  np_tan := tan
}.

(* ================================================================== *)
(** * numpy *)
(* ================================================================== *)

Module np.
Section Arrays.
Context {A : Type} `{Numeric A}.
Local Open Scope num_scope.

Definition zeros (n : nat) : list A := repeat (of_Z 0) n.

(** [np.arange(0, n)], as floats once multiplied by one. *)
Definition arange (n : nat) : list A :=
  map (fun i => of_Z (Z.of_nat i)) (seq 0 n).

(** [np.fft.rfftfreq(n, d)]: [val = 1.0/(n*d)], [N = n//2 + 1],
    [arange(0, N) * val]. *)
Definition rfftfreq (n : nat) (d : A) : list A :=
  let val := of_Z 1 / (of_Z (Z.of_nat n) * d) in
  map (fun i => i * val) (arange (n / 2 + 1)).

(** [arr >= low] and [arr <= high] against a scalar. *)
Definition ge_scalar (arr : list A) (low : A) : list bool :=
  map (fun f => f >=? low) arr.
Definition le_scalar (arr : list A) (high : A) : list bool :=
  map (fun f => f <=? high) arr.

(** [m1 & m2] on boolean arrays of one length. *)
Fixpoint mask_and (m1 m2 : list bool) : list bool :=
  match m1, m2 with
  | x :: m1', y :: m2' => (x && y) :: mask_and m1' m2'
  | _, _ => []
  end.

(** [arr[mask]]: the entries of [arr] where [mask] is set, in order.  numpy
    demands both of one length; [update] indexes a spectrum of [n//2+1]
    bins with a mask over the [n//2+1] frequencies. *)
Fixpoint bool_index (arr : list A) (mask : list bool) : list A :=
  match arr, mask with
  | x :: arr', m :: mask' =>
      if m then x :: bool_index arr' mask' else bool_index arr' mask'
  | _, _ => []
  end.

Definition sum (arr : list A) : A := fold_left nadd arr (of_Z 0).

(** [np.mean(arr)]: the sum divided by the number of entries; of an empty
    array that is [0/0]. *)
Definition mean (arr : list A) : A :=
  sum arr / of_Z (Z.of_nat (length arr)).

(** What the [n] argument of [np.fft.rfft] does to the input: cropped when
    longer than [n], padded with zeros when shorter. *)
Definition fit_length (n : nat) (x : list A) : list A :=
  firstn n x ++ zeros (n - length x).

Context `{Trig A}.

(** The angle [2*pi*k*t/n] of the DFT kernel. *)
Definition dft_angle (n k t : nat) : A :=
  (of_Z 2 * np_pi * of_Z (Z.of_nat (k * t))) / of_Z (Z.of_nat n).

(** Real and imaginary part of bin [k] of the transform of [x], the
    samples numbered from [t0]. *)
Fixpoint dft_re (n k t0 : nat) (x : list A) : A :=
  match x with
  | [] => of_Z 0
  | v :: x' => v * np_cos (dft_angle n k t0) + dft_re n k (S t0) x'
  end.

Fixpoint dft_im (n k t0 : nat) (x : list A) : A :=
  match x with
  | [] => of_Z 0
  | v :: x' => dft_im n k (S t0) x' - v * np_sin (dft_angle n k t0)
  end.

(** [np.abs(np.fft.rfft(x, n=n))]: the magnitudes of the [n//2 + 1]
    non-negative-frequency bins of the length-[n] transform. *)
Definition rfft_abs (x : list A) (n : nat) : list A :=
  let xn := fit_length n x in
  map (fun k =>
         let re := dft_re n k 0 xn in
         let im := dft_im n k 0 xn in
         nsqrt (re * re + im * im))
      (seq 0 (n / 2 + 1)).
End Arrays.
End np.

(* ================================================================== *)
(** * scipy.signal *)
(* ================================================================== *)

(** Filter coefficients [(b, a)]. *)
Definition coeffs (A : Type) : Type := (list A * list A)%type.

(** The coefficient pair [scipy.signal.butter] returns (analog prototype,
    band transform, bilinear transform, zpk to polynomial) is not computed:
    the program designs two band-pass filters and never applies them.  A
    design that passed validation is represented by the arguments that
    determine it. *)
Record butter_design (A : Type) : Type := mk_butter_design {
  butter_order : nat;
  butter_low : A;
  butter_high : A
}.

Arguments mk_butter_design {A}.

Module signal.
Section Filters.
Context {A : Type} `{Numeric A}.
Local Open Scope num_scope.

(** ** lfilter *)

(** Both coefficient vectors brought to one length and divided by [a[0]]
    (scipy rejects [a[0] = 0]; every filter built here has [a[0] = 1]). *)
Definition pad_coeffs (n : nat) (c : list A) : list A :=
  c ++ np.zeros (n - length c).

Definition normalize (a0 : A) (c : list A) : list A :=
  map (fun v => v / a0) c.

(** The delay line after one sample: [z[i] = z[i+1] + x*b[i+1] - y*a[i+1]],
    the last one without the [z[i+1]] term.  [bt], [at_] are the
    coefficients from index one, [zt] the delays from index one. *)
Fixpoint next_delays (bt at_ zt : list A) (x y : A) : list A :=
  match bt, at_ with
  | bi :: bt', ai :: at' =>
      match zt with
      | zn :: zt' => (zn + x * bi - y * ai) :: next_delays bt' at' zt' x y
      | [] => [x * bi - y * ai]
      end
  | _, _ => []
  end.

(** One sample through the filter: the output and the new delay line. *)
Definition filter_step (b a z : list A) (x : A) : A * list A :=
  match b, a, z with
  | b0 :: bt, _ :: at_, z0 :: zt =>
      let y := z0 + b0 * x in
      (y, next_delays bt at_ zt x y)
  | b0 :: _, _, _ => (x * b0, z)
  | [], _, _ => (of_Z 0, z)
  end.

(** The recursion over a block from the delay line [z]: the outputs and
    the delay line left behind. *)
Fixpoint filter_run (b a z : list A) (x : list A) : list A * list A :=
  match x with
  | [] => ([], z)
  | xn :: x' =>
      let '(y, z') := filter_step b a z xn in
      let '(ys, zf) := filter_run b a z' x' in
      (y :: ys, zf)
  end.

Definition norm_b (b a : list A) : list A :=
  normalize (hd (of_Z 1) a) (pad_coeffs (Nat.max (length a) (length b)) b).
Definition norm_a (b a : list A) : list A :=
  normalize (hd (of_Z 1) a) (pad_coeffs (Nat.max (length a) (length b)) a).
Definition zero_state (b a : list A) : list A :=
  np.zeros (Nat.max (length a) (length b) - 1).

(** [lfilter(b, a, x, zi=z)]: outputs and final delays. *)
Definition lfilter_zi (b a x z : list A) : list A * list A :=
  filter_run (norm_b b a) (norm_a b a) z x.

(** [lfilter(b, a, x)]: initial rest, only the outputs are returned. *)
Definition lfilter (b a x : list A) : list A :=
  fst (lfilter_zi b a x (zero_state b a)).

(** ** iirnotch *)

Context `{Trig A}.

(** [iirnotch(w0, Q)] with the default [fs = 2.0].  [w0] and [Q] are
    Python floats there ([float(w0)], [float(Q)]), so [bw = w0/Q] raises
    on [Q == 0.0]; [beta] is a numpy scalar, so the division of the gain
    does not. *)
Definition iirnotch (w0 Q : A) : result (coeffs A) :=
  let w0 := of_Z 2 * w0 / of_Z 2 in
  if (w0 >? of_Z 1) || (w0 <? of_Z 0) then Raise ValueError
  else
    bw <- truediv w0 Q ;;
    let bw := bw * np_pi in
    let w0 := w0 * np_pi in
    let beta := np_tan (bw / of_Z 2) in
    let gain := of_Z 1 / (of_Z 1 + beta) in
    let b := map (fun c => gain * c)
                 [of_Z 1; of_Z (-2) * np_cos w0; of_Z 1] in
    let a := [of_Z 1; of_Z (-2) * gain * np_cos w0;
              of_Z 2 * gain - of_Z 1] in
    Ok (b, a).

(** ** butter *)

(** [butter(N, [low, high], btype='band')]: a digital design demands
    critical frequencies in increasing order strictly between 0 and 1. *)
Definition butter_band (N : nat) (low high : A) : result (butter_design A) :=
  if (low <=? of_Z 0) || (high <=? of_Z 0) then Raise ValueError
  else if negb (low <? high) then Raise ValueError
  else if (low >=? of_Z 1) || (high >=? of_Z 1) then Raise ValueError
  else Ok (mk_butter_design N low high).
End Filters.
End signal.

(* ================================================================== *)
(** * EEGVisualizer *)
(* ================================================================== *)

Record EEGVisualizer (A : Type) : Type := mkEEGVisualizer {
  timeScale : Z;
  normalScale : Z;
  alphaScale : Z;
  freqAvgScale : Z;
  alphaCenter : Z;
  alphaBandwidth : Z;
  betaCenter : Z;
  betaBandwidth : Z;
  timeLength : nat;
  timeSignal : list A;
  fs : Z;
  fft_size : nat;
  freqs : list A;
  notch_freq : Z;
  notch_filter : coeffs A;
  alpha_filter : butter_design A;
  beta_filter : butter_design A;
  (** the data last handed to the three plot items *)
  timeCurve : list A;
  freqBars : list A;
  avgBars : list A
}.

Arguments mkEEGVisualizer {A}.

Unset Implicit Arguments.

Section Visualizer.
Context {A : Type} `{Numeric A}.
Local Open Scope num_scope.

Definition set_timeSignal (self : EEGVisualizer A) (v : list A) :=
  mkEEGVisualizer
    (timeScale self) (normalScale self) (alphaScale self)
    (freqAvgScale self) (alphaCenter self) (alphaBandwidth self)
    (betaCenter self) (betaBandwidth self) (timeLength self)
    v (fs self) (fft_size self) (freqs self) (notch_freq self)
    (notch_filter self) (alpha_filter self) (beta_filter self)
    (timeCurve self) (freqBars self) (avgBars self).

(** [timeCurve.setData], [freqBars.setOpts(height=...)] and
    [avgBars.setOpts(height=...)] of one [update]. *)
Definition set_plots (self : EEGVisualizer A) (tc fb ab : list A) :=
  mkEEGVisualizer
    (timeScale self) (normalScale self) (alphaScale self)
    (freqAvgScale self) (alphaCenter self) (alphaBandwidth self)
    (betaCenter self) (betaBandwidth self) (timeLength self)
    (timeSignal self) (fs self) (fft_size self) (freqs self)
    (notch_freq self) (notch_filter self) (alpha_filter self)
    (beta_filter self) tc fb ab.

Definition apply_filter (data : list A) (filter_coeffs : coeffs A) : list A :=
  let '(b, a) := filter_coeffs in
  signal.lfilter b a data.

(** [indata[:, 0]]: the first channel of each frame. *)
Definition column0 (indata : list (list A)) : list A :=
  map (fun frame => hd (of_Z 0) frame) indata.

Definition audio_callback (self : EEGVisualizer A) (indata : list (list A))
  : EEGVisualizer A :=
  set_timeSignal self (column0 indata).

(** The band table of [update]: Delta, Theta, Alpha, Low Beta, High Beta,
    Gamma. *)
Definition bands : list (Z * Z) :=
  [(0, 4); (4, 8); (8, 12); (12, 20); (20, 30); (30, 45)]%Z.

Definition band_mask (frequencies : list A) (band : Z * Z) : list bool :=
  let '(low, high) := band in
  np.mask_and (np.ge_scalar frequencies (of_Z low))
              (np.le_scalar frequencies (of_Z high)).

(** The body of the loop over [bands]. *)
Definition avg_heights (frequencies fft_data : list A) : list A :=
  map (fun band => np.mean (np.bool_index fft_data (band_mask frequencies band)))
      bands.

Context `{Trig A}.

Definition create_notch_filter (notch_freq fs quality : A)
  : result (coeffs A) :=
  let nyq := (of_Z 1 / of_Z 2) * fs in
  freq <- truediv notch_freq nyq ;;
  signal.iirnotch freq quality.

(** The default of the [quality] argument. *)
Definition default_quality : A := of_Z 30.

(** The transform of one block, as [update] calls it. *)
Definition spectrum (self : EEGVisualizer A) (filtered : list A) : list A :=
  np.rfft_abs filtered (fft_size self).

Definition update (self : EEGVisualizer A) : EEGVisualizer A :=
  if Nat.eqb (length (timeSignal self)) 0 then self
  else
    let filtered := apply_filter (timeSignal self) (notch_filter self) in
    let fft_data := spectrum self filtered in
    set_plots self
      (map (fun v => v * of_Z (timeScale self)) filtered)
      (firstn 30 fft_data)
      (avg_heights (freqs self) fft_data).

Definition create_bandpass (center bandwidth fs : A)
  : result (butter_design A) :=
  low <- truediv (center - bandwidth / of_Z 2) ((of_Z 1 / of_Z 2) * fs) ;;
  high <- truediv (center + bandwidth / of_Z 2) ((of_Z 1 / of_Z 2) * fs) ;;
  signal.butter_band 4 low high.

(** The attributes [__init__] sets, given the three filters it designed:
    the scale constants, a buffer of 240 zeros, [fs = 256],
    [fft_size = 256], the frequency table, and plots holding no trace,
    30 zero bars and 6 zero bars. *)
Definition visualizer_with (notch : coeffs A) (alpha beta : butter_design A)
  : EEGVisualizer A :=
  let timeLength := 240%nat in
  let fs := 256%Z in
  let fft_size := 256%nat in
  mkEEGVisualizer 50 50 100 50 12 2 24 2
    timeLength (np.zeros timeLength) fs fft_size
    (np.rfftfreq fft_size (of_Z 1 / of_Z fs))
    60 notch alpha beta
    [] (np.zeros 30) (np.zeros 6).

(** [__init__], without the widgets, the stream and the timer.  A design
    that raises aborts the construction. *)
Definition init : result (EEGVisualizer A) :=
  notch <- create_notch_filter (of_Z 60) (of_Z 256) default_quality ;;
  alpha <- create_bandpass (of_Z 12) (of_Z 2) (of_Z 256) ;;
  beta <- create_bandpass (of_Z 24) (of_Z 2) (of_Z 256) ;;
  Ok (visualizer_with notch alpha beta).
End Visualizer.


(* ================================================================== *)
(** * Sample values in binary64 *)
(* ================================================================== *)

Module Sample.
Local Open Scope float_scope.

(** [iirnotch(60/128, 30)] in binary64, with the C library's [cos] and
    [tan] (the last bit may differ between platforms). *)
Definition notch_60 : coeffs float :=
  ([0x1.f3bb757e48b83p-1; -0x1.87dbce5e05ac2p-3; 0x1.f3bb757e48b83p-1],
   [1; -0x1.87dbce5e05ac2p-3; 0x1.e776eafc91706p-1]).

(** The two band-pass designs of [__init__]: edges [11/128, 13/128] and
    [23/128, 25/128]. *)
Definition alpha_12 : butter_design float :=
  mk_butter_design 4 0.0859375 0.1015625.
Definition beta_24 : butter_design float :=
  mk_butter_design 4 0.1796875 0.1953125.

(** The visualizer as constructed, before the first audio block. *)
Definition visualizer : EEGVisualizer float :=
  visualizer_with notch_60 alpha_12 beta_24.
End Sample.

(* ================================================================== *)
(** * List facts about the library models *)
(* ================================================================== *)

Section ArrayFacts.
Context {A : Type} `{Numeric A}.

Lemma zeros_length (n : nat) : length (np.zeros (A:=A) n) = n.
Proof. apply repeat_length. Qed.

Lemma fit_length_length (n : nat) (x : list A) :
  length (np.fit_length n x) = n.
Proof.
  unfold np.fit_length.
  rewrite length_app, length_firstn, zeros_length. lia.
Qed.

Lemma fit_length_short (n : nat) (x : list A) :
  length x <= n -> np.fit_length n x = x ++ np.zeros (n - length x).
Proof.
  intros Hle. unfold np.fit_length. now rewrite firstn_all2.
Qed.

Lemma fit_length_long (n : nat) (x : list A) :
  n <= length x -> np.fit_length n x = firstn n x.
Proof.
  intros Hle. unfold np.fit_length.
  replace (n - length x) with 0 by lia. apply app_nil_r.
Qed.

Lemma fit_length_idem (n : nat) (x : list A) :
  np.fit_length n (np.fit_length n x) = np.fit_length n x.
Proof.
  rewrite fit_length_long by (rewrite fit_length_length; lia).
  apply firstn_all2. rewrite fit_length_length. lia.
Qed.

(** Indexing by a mask is filtering the (entry, flag) pairs. *)
Lemma bool_index_combine (arr : list A) (mask : list bool) :
  np.bool_index arr mask = map fst (filter snd (combine arr mask)).
Proof.
  revert mask. induction arr as [|x arr IH]; intros [|m mask]; simpl; auto.
  destruct m; simpl; now rewrite IH.
Qed.

Lemma mask_and_map (T : Type) (f g : T -> bool) (l : list T) :
  np.mask_and (map f l) (map g l) = map (fun v => f v && g v) l.
Proof. induction l as [|v l IH]; simpl; congruence. Qed.
End ArrayFacts.

Section FilterFacts.
Context {A : Type} `{Numeric A}.

Lemma filter_run_length (b a : list A) (x z : list A) :
  length (fst (signal.filter_run b a z x)) = length x.
Proof.
  revert z. induction x as [|xn x IH]; intros z; simpl; auto.
  destruct (signal.filter_step b a z xn) as [y z'].
  specialize (IH z').
  destruct (signal.filter_run b a z' x) as [ys zf]. simpl in *. lia.
Qed.

(** Running over a concatenation is running over the first part and then
    over the second from the delay line the first part left. *)
Lemma filter_run_app (b a : list A) (x1 x2 z : list A) :
  signal.filter_run b a z (x1 ++ x2) =
  let '(y1, z1) := signal.filter_run b a z x1 in
  let '(y2, z2) := signal.filter_run b a z1 x2 in
  (y1 ++ y2, z2).
Proof.
  revert z. induction x1 as [|xn x1 IH]; intros z; simpl.
  - now destruct (signal.filter_run b a z x2).
  - destruct (signal.filter_step b a z xn) as [y z'].
    rewrite IH.
    destruct (signal.filter_run b a z' x1) as [y1 z1].
    now destruct (signal.filter_run b a z1 x2).
Qed.

Lemma lfilter_length (b a x : list A) :
  length (signal.lfilter b a x) = length x.
Proof. apply filter_run_length. Qed.

Lemma apply_filter_length (data : list A) (c : coeffs A) :
  length (apply_filter data c) = length data.
Proof. destruct c as [b a]. apply lfilter_length. Qed.
End FilterFacts.

(* ================================================================== *)
(** * The exact-arithmetic visualizer *)
(* ================================================================== *)

Module Ideal.
Local Open Scope R_scope.

(** The notch design in closed form: centre [15*PI/32] rad/sample
    (60 Hz at 256 Hz), [beta = tan (PI/128)]. *)
Definition c0 : R := cos (15 * PI / 32).
Definition beta : R := tan (PI / 128).
Definition gain : R := 1 / (1 + beta).

Definition notch_60 : coeffs R :=
  ([gain * 1; gain * (-2 * c0); gain * 1],
   [1; -2 * gain * c0; 2 * gain - 1]).

Definition alpha_12 : butter_design R := mk_butter_design 4 (11 / 128) (13 / 128).
Definition beta_24 : butter_design R := mk_butter_design 4 (23 / 128) (25 / 128).

Definition visualizer : EEGVisualizer R :=
  visualizer_with notch_60 alpha_12 beta_24.
End Ideal.

Lemma Rltb_true (x y : R) : (x < y)%R -> Rltb x y = true.
Proof. intros Hlt. unfold Rltb. now destruct (Rlt_dec x y). Qed.

Lemma Rltb_false (x y : R) : (y <= x)%R -> Rltb x y = false.
Proof. intros Hle. unfold Rltb. destruct (Rlt_dec x y); auto; lra. Qed.

Lemma Rleb_true (x y : R) : (x <= y)%R -> Rleb x y = true.
Proof. intros Hle. unfold Rleb. now destruct (Rle_dec x y). Qed.

Lemma Rleb_false (x y : R) : (y < x)%R -> Rleb x y = false.
Proof. intros Hlt. unfold Rleb. destruct (Rle_dec x y); auto; lra. Qed.

(** Over the reals a division raises on the divisor 0 and on no other. *)
Lemma truediv_nonzero (x y : R) : y <> 0%R -> truediv x y = Ok (x / y)%R.
Proof.
  intros Hy. unfold truediv, neqb. cbn [of_Z nleb ndiv R_numeric].
  unfold Rleb. destruct (Rle_dec y 0), (Rle_dec 0 y); cbn [andb];
    try reflexivity.
  exfalso. apply Hy. lra.
Qed.

Lemma truediv_zero (x : R) : truediv x 0%R = Raise ZeroDivisionError.
Proof.
  unfold truediv, neqb. cbn [of_Z nleb R_numeric].
  now rewrite Rleb_true by lra.
Qed.

(** The notch [__init__] asks for is the closed form above. *)
Lemma create_notch_filter_60 :
  create_notch_filter (A:=R) (of_Z 60) (of_Z 256) default_quality
  = Ok Ideal.notch_60.
Proof.
  unfold create_notch_filter, signal.iirnotch, default_quality, ngtb.
  cbn [of_Z nadd nsub nmul ndiv nltb nleb R_numeric np_pi np_cos np_tan R_trig].
  rewrite truediv_nonzero by lra. cbn [bind].
  rewrite (Rltb_false 1) by lra.
  rewrite (Rltb_false _ 0) by lra.
  cbn [orb]. rewrite truediv_nonzero by lra. cbn [bind map].
  cbn [of_Z nadd nsub nmul ndiv nltb nleb R_numeric np_pi np_cos np_tan R_trig].
  unfold Ideal.notch_60, Ideal.gain, Ideal.beta, Ideal.c0.
  replace (2 * (60 / (1 / 2 * 256)) / 2 / 30 * PI / 2)%R with (PI / 128)%R by field.
  replace (2 * (60 / (1 / 2 * 256)) / 2 * PI)%R with (15 * PI / 32)%R by field.
  reflexivity.
Qed.

Lemma create_bandpass_12 :
  create_bandpass (A:=R) (of_Z 12) (of_Z 2) (of_Z 256) = Ok Ideal.alpha_12.
Proof.
  unfold create_bandpass, signal.butter_band, ngeb.
  cbn [of_Z nadd nsub nmul ndiv nltb nleb R_numeric].
  rewrite !truediv_nonzero by lra. cbn [bind].
  rewrite !Rleb_false by lra. rewrite Rltb_true by lra.
  cbn [orb negb]. unfold Ideal.alpha_12. f_equal. f_equal; field.
Qed.

Lemma create_bandpass_24 :
  create_bandpass (A:=R) (of_Z 24) (of_Z 2) (of_Z 256) = Ok Ideal.beta_24.
Proof.
  unfold create_bandpass, signal.butter_band, ngeb.
  cbn [of_Z nadd nsub nmul ndiv nltb nleb R_numeric].
  rewrite !truediv_nonzero by lra. cbn [bind].
  rewrite !Rleb_false by lra. rewrite Rltb_true by lra.
  cbn [orb negb]. unfold Ideal.beta_24. f_equal. f_equal; field.
Qed.

(** In exact arithmetic, construction succeeds and yields [Ideal.visualizer]. *)
Lemma init_ideal : init (A:=R) = Ok Ideal.visualizer.
Proof.
  unfold init.
  rewrite create_notch_filter_60. cbn [bind].
  rewrite create_bandpass_12. cbn [bind].
  rewrite create_bandpass_24. cbn [bind].
  reflexivity.
Qed.

(** In binary64 the three validity checks pass whatever the platform's
    [cos], [sin] and [tan] return, and the frequency table, the buffers and
    the two band-pass requests are those of [Sample.visualizer]. *)
Lemma init_float (c s t : float -> float) :
  exists notch,
    @init float float_numeric (float_trig c s t)
    = Ok (visualizer_with notch Sample.alpha_12 Sample.beta_24).
Proof.
  eexists. unfold init, create_notch_filter, signal.iirnotch.
  vm_compute. reflexivity.
Qed.

(* ================================================================== *)
(** * The per-block step *)
(* ================================================================== *)

Section UpdateFacts.
Context {A : Type} `{Numeric A} `{Trig A}.
Local Open Scope num_scope.

(** The three arrays one [update] hands to the plots for a block. *)
Definition filtered_of (self : EEGVisualizer A) : list A :=
  apply_filter (timeSignal self) (notch_filter self).

Definition fft_data_of (self : EEGVisualizer A) : list A :=
  spectrum self (filtered_of self).

Lemma update_nonempty (self : EEGVisualizer A) :
  timeSignal self <> [] ->
  update self =
  set_plots self
    (map (fun v => v * of_Z (timeScale self)) (filtered_of self))
    (firstn 30 (fft_data_of self))
    (avg_heights (freqs self) (fft_data_of self)).
Proof.
  intros Hne. unfold update.
  destruct (timeSignal self) eqn:E; [congruence|].
  cbn [length Nat.eqb]. unfold fft_data_of, filtered_of. now rewrite E.
Qed.

Lemma update_timeSignal (self : EEGVisualizer A) :
  timeSignal (update self) = timeSignal self.
Proof.
  unfold update. now destruct (Nat.eqb (length (timeSignal self)) 0).
Qed.

(** The mask of [update] and the spectrum it indexes have one length:
    the frequency table has [fft_size // 2 + 1] entries from [__init__] on,
    and neither [audio_callback] nor [update] touches it. *)
Definition table_fits (self : EEGVisualizer A) : Prop :=
  length (freqs self) = (fft_size self / 2 + 1)%nat.

Lemma rfft_abs_length (x : list A) (n : nat) :
  length (np.rfft_abs x n) = (n / 2 + 1)%nat.
Proof. unfold np.rfft_abs. now rewrite length_map, length_seq. Qed.

Lemma band_mask_length (frequencies : list A) (band : Z * Z) :
  length (band_mask frequencies band) = length frequencies.
Proof.
  destruct band as [low high].
  unfold band_mask, np.ge_scalar, np.le_scalar.
  rewrite mask_and_map. apply length_map.
Qed.

Lemma table_fits_init (notch : coeffs A) (alpha beta : butter_design A) :
  table_fits (visualizer_with notch alpha beta).
Proof.
  unfold table_fits, visualizer_with, np.rfftfreq, np.arange.
  cbn [freqs fft_size]. now rewrite !length_map, length_seq.
Qed.

Lemma table_fits_audio_callback (self : EEGVisualizer A)
  (indata : list (list A)) :
  table_fits self -> table_fits (audio_callback self indata).
Proof. exact (fun Hfit => Hfit). Qed.

Lemma table_fits_update (self : EEGVisualizer A) :
  table_fits self -> table_fits (update self).
Proof.
  unfold table_fits, update.
  now destruct (Nat.eqb (length (timeSignal self)) 0).
Qed.

Lemma mask_fits_spectrum (self : EEGVisualizer A) (band : Z * Z) :
  table_fits self ->
  length (band_mask (freqs self) band) = length (fft_data_of self).
Proof.
  intros Hfit. rewrite band_mask_length. unfold fft_data_of, spectrum.
  now rewrite rfft_abs_length.
Qed.

(** C9: with an empty current block, [update] returns at once: nothing is
    filtered, transformed or averaged, and the visualizer, with the data
    the plots were last given, stays as it was. *)
Theorem update_empty_block (self : EEGVisualizer A) :
  length (timeSignal self) = 0%nat -> update self = self.
Proof.
  intros Hlen. unfold update. now rewrite Hlen.
Qed.

(** C8: [update] reads the current block, the notch coefficients, the
    transform size, the frequency table and [timeScale], and writes only
    the plot data.  It leaves the block slot as it was, so a second run
    without a new block from the producer emits exactly the waveform,
    spectrum and band averages of the first; and what a run emits for a
    non-empty block does not depend on what the plots held before. *)
Theorem update_deterministic (self : EEGVisualizer A) :
  timeSignal (update self) = timeSignal self /\
  update (update self) = update self /\
  (forall other : EEGVisualizer A,
      timeSignal other = timeSignal self ->
      notch_filter other = notch_filter self ->
      fft_size other = fft_size self ->
      freqs other = freqs self ->
      timeScale other = timeScale self ->
      timeSignal self <> [] ->
      timeCurve (update other) = timeCurve (update self) /\
      freqBars (update other) = freqBars (update self) /\
      avgBars (update other) = avgBars (update self)).
Proof.
  split; [apply update_timeSignal|]. split.
  - unfold update at 2 3.
    destruct (Nat.eqb (length (timeSignal self)) 0) eqn:E.
    + unfold update. now rewrite E.
    + unfold update. cbn [timeSignal set_plots]. rewrite E.
      cbn [notch_filter set_plots timeScale freqs]. reflexivity.
  - intros other Hts Hnf Hn Hfr Hsc Hne.
    rewrite (update_nonempty self Hne).
    rewrite (update_nonempty other) by now rewrite Hts.
    cbn [timeCurve freqBars avgBars set_plots].
    unfold fft_data_of, spectrum, filtered_of.
    rewrite Hts, Hnf, Hn, Hfr, Hsc. auto.
Qed.

(** ** The transform of a sequence of exactly its own length *)

(** The discrete Fourier transform as it is defined for a sequence [y],
    with no size argument: bin [k] is the sum over [t < length y] of
    [y[t] * exp (-2 pi i k t / length y)], so every sample of [y], and
    no other, enters every bin.  The magnitudes of the bins 0 to
    [length y / 2] are what [np.abs(np.fft.rfft(y))] returns. *)
Definition dft_bin_re (y : list A) (k : nat) : A :=
  fold_right
    (fun t acc =>
       nth t y (of_Z 0) * np_cos (np.dft_angle (length y) k t) + acc)
    (of_Z 0) (seq 0 (length y)).

Definition dft_bin_im (y : list A) (k : nat) : A :=
  fold_right
    (fun t acc =>
       acc - nth t y (of_Z 0) * np_sin (np.dft_angle (length y) k t))
    (of_Z 0) (seq 0 (length y)).

Definition dft_magnitudes (y : list A) : list A :=
  map (fun k =>
         nsqrt (dft_bin_re y k * dft_bin_re y k
                + dft_bin_im y k * dft_bin_im y k))
      (seq 0 (length y / 2 + 1)).

Lemma dft_re_indexed (n k : nat) (x : list A) :
  forall p : list A,
    np.dft_re n k (length p) x
    = fold_right
        (fun t acc =>
           nth t (p ++ x) (of_Z 0) * np_cos (np.dft_angle n k t) + acc)
        (of_Z 0) (seq (length p) (length x)).
Proof.
  induction x as [|v x IH]; intros p; [reflexivity|].
  cbn [np.dft_re length seq fold_right]. rewrite nth_middle. f_equal.
  specialize (IH (p ++ [v])).
  rewrite length_app, Nat.add_1_r, <- app_assoc in IH. exact IH.
Qed.

Lemma dft_im_indexed (n k : nat) (x : list A) :
  forall p : list A,
    np.dft_im n k (length p) x
    = fold_right
        (fun t acc =>
           acc - nth t (p ++ x) (of_Z 0) * np_sin (np.dft_angle n k t))
        (of_Z 0) (seq (length p) (length x)).
Proof.
  induction x as [|v x IH]; intros p; [reflexivity|].
  cbn [np.dft_im length seq fold_right]. rewrite nth_middle. f_equal.
  specialize (IH (p ++ [v])).
  rewrite length_app, Nat.add_1_r, <- app_assoc in IH. exact IH.
Qed.

(** [np.fft.rfft] with a size argument is the transform, at its own
    length, of the input cropped or zero-padded to that size. *)
Lemma rfft_abs_of_fitted (x : list A) (n : nat) :
  np.rfft_abs x n = dft_magnitudes (np.fit_length n x).
Proof.
  unfold np.rfft_abs, dft_magnitudes, dft_bin_re, dft_bin_im.
  rewrite fit_length_length. apply map_ext. intros k.
  now rewrite (dft_re_indexed n k (np.fit_length n x) []),
              (dft_im_indexed n k (np.fit_length n x) []),
              fit_length_length.
Qed.

(** Sample [t] of the fitted block: sample [t] of the block where there
    is one, zero beyond its end. *)
Lemma fit_length_nth (n t : nat) (x : list A) :
  t < n ->
  nth t (np.fit_length n x) (of_Z 0)
  = if Nat.ltb t (length x) then nth t x (of_Z 0) else of_Z 0.
Proof.
  intros Ht. unfold np.fit_length.
  destruct (Nat.ltb_spec t (length x)) as [Hlt|Hge].
  - rewrite app_nth1 by (rewrite length_firstn; lia).
    rewrite nth_firstn. now rewrite (proj2 (Nat.ltb_lt t n) Ht).
  - rewrite app_nth2 by (rewrite length_firstn; lia).
    unfold np.zeros. apply nth_repeat.
Qed.

(** C5: what [update] displays is the transform of the filtered block
    brought to exactly [fft_size] samples.  The spectrum it computes, and
    with it the 30 bars and the six band averages, is the discrete
    Fourier transform, taken at its own length, of the fitted block:
    sample [t] of the filtered block for [t] below both its length and
    [fft_size], zero from the end of the block up to [fft_size], and
    nothing of the block from [fft_size] on.  With [fft_size = 256] a
    240-sample block is followed by 16 zeros. *)
Theorem spectrum_fit_length (self : EEGVisualizer A) :
  timeSignal self <> [] ->
  let n := fft_size self in
  let filtered := filtered_of self in
  let fitted := np.fit_length n filtered in
  fft_data_of self = dft_magnitudes fitted /\
  freqBars (update self) = firstn 30 (dft_magnitudes fitted) /\
  avgBars (update self) = avg_heights (freqs self) (dft_magnitudes fitted) /\
  length fitted = n /\
  (forall t : nat,
      t < n ->
      nth t fitted (of_Z 0)
      = if Nat.ltb t (length (timeSignal self))
        then nth t filtered (of_Z 0) else of_Z 0) /\
  (length (timeSignal self) <= n ->
   fitted = filtered ++ np.zeros (n - length (timeSignal self))) /\
  (n <= length (timeSignal self) -> fitted = firstn n filtered) /\
  (n = 256%nat -> length (timeSignal self) = 240%nat ->
   fitted = filtered ++ np.zeros 16).
Proof.
  intros Hne n filtered fitted.
  assert (Hlen : length filtered = length (timeSignal self))
    by apply apply_filter_length.
  assert (Hsame : fft_data_of self = dft_magnitudes fitted)
    by apply rfft_abs_of_fitted.
  rewrite <- Hsame, (update_nonempty self Hne).
  cbn [freqBars avgBars set_plots].
  split; [reflexivity|]. split; [reflexivity|]. split; [reflexivity|].
  split; [apply fit_length_length|]. split; [|split; [|split]].
  - intros t Ht. unfold fitted. rewrite fit_length_nth by exact Ht.
    now rewrite Hlen.
  - intros Hle. unfold fitted. rewrite fit_length_short by lia.
    now rewrite Hlen.
  - intros Hle. apply fit_length_long. lia.
  - intros Hn H240. unfold fitted. rewrite fit_length_short by lia.
    rewrite Hlen, Hn, H240. reflexivity.
Qed.
End UpdateFacts.

(* ================================================================== *)
(** * Band aggregation *)
(* ================================================================== *)

(** Positions of the set flags of a mask, numbered from [i]. *)
Fixpoint true_indices_from (i : nat) (mask : list bool) : list nat :=
  match mask with
  | [] => []
  | m :: mask' =>
      if m then i :: true_indices_from (S i) mask'
      else true_indices_from (S i) mask'
  end.

Definition true_indices (mask : list bool) : list nat :=
  true_indices_from 0 mask.

(** The entries of [arr] at the positions [idx] that exist. *)
Definition take_indices {T : Type} (arr : list T) (idx : list nat) : list T :=
  flat_map (fun i => match nth_error arr i with
                     | Some v => [v]
                     | None => []
                     end) idx.

Section Aggregation.
Context {A : Type} `{Numeric A}.
Local Open Scope num_scope.

(** The aggregate in the words of the specification: per band, the
    magnitudes of the (frequency, magnitude) bins whose frequency lies in
    the closed interval, and their arithmetic mean. *)
Definition bins_in_band (frequencies magnitudes : list A) (low high : A)
  : list A :=
  map snd
      (filter (fun bin => (low <=? fst bin) && (fst bin <=? high))
              (combine frequencies magnitudes)).

Definition arithmetic_mean (values : list A) : A :=
  fold_left nadd values (of_Z 0) / of_Z (Z.of_nat (length values)).

Definition aggregate_spec (frequencies magnitudes : list A) : list A :=
  map (fun band : Z * Z =>
         arithmetic_mean
           (bins_in_band frequencies magnitudes
                         (of_Z (fst band)) (of_Z (snd band))))
      [(0, 4); (4, 8); (8, 12); (12, 20); (20, 30); (30, 45)]%Z.

Lemma bool_index_band (frequencies magnitudes : list A) (low high : Z) :
  np.bool_index magnitudes (band_mask frequencies (low, high))
  = bins_in_band frequencies magnitudes (of_Z low) (of_Z high).
Proof.
  unfold band_mask, bins_in_band, np.ge_scalar, np.le_scalar, ngeb.
  rewrite mask_and_map. revert magnitudes.
  induction frequencies as [|f fr IH]; intros [|m ms]; simpl; auto.
  destruct (of_Z low <=? f); destruct (f <=? of_Z high); simpl;
    now rewrite IH.
Qed.

(** C6: for every frequency table and magnitude spectrum, the averages
    [update] computes are, for Delta [0,4], Theta [4,8], Alpha [8,12],
    Low Beta [12,20], High Beta [20,30] and Gamma [30,45] in this order,
    the arithmetic mean (sum over count) of the magnitudes of all bins
    whose frequency [f] satisfies [low <= f] and [f <= high]. *)
Theorem avg_heights_are_band_means (frequencies magnitudes : list A) :
  avg_heights frequencies magnitudes
  = aggregate_spec frequencies magnitudes /\
  length (avg_heights frequencies magnitudes) = 6%nat.
Proof.
  split; [|reflexivity].
  unfold avg_heights, aggregate_spec, bands.
  cbn [map fst snd]. now rewrite !bool_index_band.
Qed.

Lemma true_indices_from_ge (i : nat) (mask : list bool) :
  Forall (fun j => i <= j) (true_indices_from i mask).
Proof.
  revert i. induction mask as [|m mask IH]; intros i; simpl; auto.
  assert (Hrest : Forall (fun j => i <= j) (true_indices_from (S i) mask)).
  { eapply Forall_impl; [|apply IH]. intros j Hj. simpl in Hj. lia. }
  destruct m; auto.
Qed.

Lemma take_indices_beyond (T : Type) (arr : list T) (idx : list nat) :
  Forall (fun j => length arr <= j) idx -> take_indices arr idx = [].
Proof.
  induction 1 as [|j idx Hj _ IH]; simpl; auto.
  apply nth_error_None in Hj. now rewrite Hj.
Qed.

Lemma bool_index_from (done arr : list A) (mask : list bool) :
  take_indices (done ++ arr) (true_indices_from (length done) mask)
  = np.bool_index arr mask.
Proof.
  revert done mask. induction arr as [|x arr IH]; intros done mask.
  - rewrite app_nil_r.
    rewrite take_indices_beyond by apply true_indices_from_ge.
    now destruct mask.
  - destruct mask as [|m mask]; [reflexivity|].
    specialize (IH (done ++ [x]) mask).
    rewrite <- app_assoc, length_app in IH. simpl in IH.
    replace (length done + 1)%nat with (S (length done)) in IH by lia.
    simpl. destruct m; [|exact IH].
    simpl. rewrite nth_error_app2, Nat.sub_diag by lia. simpl.
    now rewrite IH.
Qed.

(** Indexing by a mask takes the entries at the positions of its set
    flags. *)
Lemma bool_index_indices (arr : list A) (mask : list bool) :
  np.bool_index arr mask = take_indices arr (true_indices mask).
Proof. symmetry. apply (bool_index_from [] arr mask). Qed.
End Aggregation.

(* ================================================================== *)
(** * The bands on the program's frequency table (binary64) *)
(* ================================================================== *)

Section FloatBands.
Local Open Scope float_scope.

(** [rfftfreq(256, 1/256)]: 129 bins, one per hertz from 0 to 128. *)
Lemma freqs_one_hertz :
  freqs Sample.visualizer = map (fun k => of_Z (Z.of_nat k)) (seq 0 129).
Proof. vm_compute. reflexivity. Qed.

(** The bins each band selects on that table. *)
Definition band_bins : list (list nat) :=
  [seq 0 5; seq 4 5; seq 8 5; seq 12 9; seq 20 11; seq 30 16].

Lemma band_bins_computed :
  map (fun band => true_indices (band_mask (freqs Sample.visualizer) band))
      bands
  = band_bins.
Proof. vm_compute. reflexivity. Qed.

(** C10: on the table of [fs = 256], [fft_size = 256] the bins 4, 8, 12,
    20 and 30 sit at exactly 4, 8, 12, 20 and 30 Hz, and since both
    comparisons of the mask are non-strict each of them is selected by
    the band that ends there and by the band that starts there: Delta
    averages bins 0..4 and Theta bins 4..8, Alpha 8..12, Low Beta 12..20,
    High Beta 20..30, Gamma 30..45, for every spectrum. *)
Theorem boundary_bins_in_both_bands :
  let table := freqs Sample.visualizer in
  map (fun k => nth k table nan) [4; 8; 12; 20; 30]%nat
  = [4; 8; 12; 20; 30] /\
  map (fun band => true_indices (band_mask table band)) bands
  = [[0; 1; 2; 3; 4]; [4; 5; 6; 7; 8]; [8; 9; 10; 11; 12];
     [12; 13; 14; 15; 16; 17; 18; 19; 20];
     [20; 21; 22; 23; 24; 25; 26; 27; 28; 29; 30];
     [30; 31; 32; 33; 34; 35; 36; 37; 38; 39; 40; 41; 42; 43; 44; 45]]%nat /\
  (forall fft_data : list float,
      avg_heights table fft_data
      = map (fun bins => np.mean (take_indices fft_data bins)) band_bins).
Proof.
  cbv zeta. split; [|split].
  - vm_compute. reflexivity.
  - vm_compute. reflexivity.
  - intros fft_data. rewrite <- band_bins_computed.
    unfold avg_heights. rewrite map_map.
    apply map_ext. intros band. now rewrite bool_index_indices.
Qed.

Lemma mean_nil_nan : PrimFloat.is_nan (np.mean (A:=float) []) = true.
Proof. vm_compute. reflexivity. Qed.

(** C2, as the code has it: there is no fallback.  A band that selects
    no bin gets [np.mean] of an empty array, that is [0/0], a NaN.  On
    the program's own table this does not arise: the six bands select
    5, 5, 5, 9, 11 and 16 bins. *)
Theorem empty_band_mean_is_nan (frequencies fft_data : list float)
  (band : Z * Z) :
  true_indices (band_mask frequencies band) = [] ->
  np.bool_index fft_data (band_mask frequencies band) = [] /\
  PrimFloat.is_nan
    (np.mean (np.bool_index fft_data (band_mask frequencies band))) = true /\
  map (fun b => length (true_indices (band_mask (freqs Sample.visualizer) b)))
      bands
  = [5; 5; 5; 9; 11; 16]%nat.
Proof.
  intros Hnone.
  assert (Hsel : np.bool_index fft_data (band_mask frequencies band) = []).
  { rewrite bool_index_indices, Hnone. reflexivity. }
  rewrite Hsel. split; [reflexivity|split].
  - apply mean_nil_nan.
  - vm_compute. reflexivity.
Qed.

(** A table of 16 Hz resolution ([fft_size = 16] at [fs = 256]) and a
    spectrum on it. *)
Definition coarse_table : list float := np.rfftfreq 16 (1 / 256).
Definition coarse_spectrum : list float := [9; 8; 7; 6; 5; 4; 3; 2; 1].

(** The Theta band on the 16 Hz table. *)
Lemma empty_band_mean_is_nan_witness :
  true_indices (band_mask coarse_table (4, 8)%Z) = [] /\
  np.bool_index coarse_spectrum (band_mask coarse_table (4, 8)%Z) = [] /\
  PrimFloat.is_nan
    (np.mean (np.bool_index coarse_spectrum
                            (band_mask coarse_table (4, 8)%Z))) = true /\
  map (fun b => length (true_indices (band_mask (freqs Sample.visualizer) b)))
      bands
  = [5; 5; 5; 9; 11; 16]%nat.
Proof.
  split; [vm_compute; reflexivity|].
  apply (empty_band_mean_is_nan coarse_table coarse_spectrum (4, 8)%Z).
  vm_compute. reflexivity.
Defined.

(** C2, refuted as stated: on the 16 Hz table the Theta band [4, 8] holds
    no bin, and the average computed for it is NaN, not a finite
    fallback. *)
Lemma empty_band_no_fallback :
  coarse_table = [0; 16; 32; 48; 64; 80; 96; 112; 128] /\
  band_mask coarse_table (4, 8)%Z = repeat false 9 /\
  map PrimFloat.is_finite (avg_heights coarse_table coarse_spectrum)
  = [true; false; false; true; false; true] /\
  PrimFloat.is_nan (nth 1 (avg_heights coarse_table coarse_spectrum) 0)
  = true.
Proof. vm_compute. repeat split. Qed.
End FloatBands.

(* ================================================================== *)
(** * NaN through the step (binary64) *)
(* ================================================================== *)

Section NaNPropagation.
Local Open Scope float_scope.

Lemma add_nan_r (x : float) : x + nan = nan.
Proof.
  apply Prim2SF_inj. rewrite FloatAxioms.add_spec.
  change (Prim2SF nan) with S754_nan. now destruct (Prim2SF x).
Qed.

Lemma mul_nan_r (x : float) : x * nan = nan.
Proof.
  apply Prim2SF_inj. rewrite FloatAxioms.mul_spec.
  change (Prim2SF nan) with S754_nan. now destruct (Prim2SF x).
Qed.

Lemma mul_nan_l (x : float) : nan * x = nan.
Proof.
  apply Prim2SF_inj. rewrite FloatAxioms.mul_spec.
  change (Prim2SF nan) with S754_nan. reflexivity.
Qed.

(** A NaN sample gives a NaN output at its position, whatever the
    coefficients and the delay line. *)
Lemma filter_step_nan (b a z : list float) :
  b <> [] -> fst (signal.filter_step b a z nan) = nan.
Proof.
  intros Hb. destruct b as [|b0 bt]; [congruence|].
  unfold signal.filter_step.
  destruct a as [|a0 at_]; [apply mul_nan_l|].
  destruct z as [|z0 zt]; [apply mul_nan_l|].
  cbn [fst nadd nmul float_numeric]. now rewrite mul_nan_r, add_nan_r.
Qed.

Lemma filter_run_nan (b a : list float) (x : list float) :
  b <> [] ->
  forall (z : list float) (i : nat),
    nth_error x i = Some nan ->
    nth_error (fst (signal.filter_run b a z x)) i = Some nan.
Proof.
  intros Hb. induction x as [|xn x IH]; intros z i Hi.
  - now destruct i.
  - simpl. destruct (signal.filter_step b a z xn) as [y z'] eqn:Estep.
    specialize (IH z').
    destruct (signal.filter_run b a z' x) as [ys zf].
    destruct i as [|i]; simpl in *.
    + injection Hi as ->. f_equal.
      change y with (fst (y, z')). rewrite <- Estep.
      now apply filter_step_nan.
    + now apply IH.
Qed.

Lemma norm_b_nonempty (b a : list float) :
  (b, a) <> ([], []) -> signal.norm_b b a <> [].
Proof.
  intros Hne Hnil. apply (f_equal (@length float)) in Hnil.
  unfold signal.norm_b, signal.normalize, signal.pad_coeffs in Hnil.
  rewrite length_map, length_app, zeros_length in Hnil. simpl in Hnil.
  destruct b; destruct a; simpl in *; try lia. congruence.
Qed.

Lemma apply_filter_nan (data : list float) (c : coeffs float) (i : nat) :
  c <> ([], []) ->
  nth_error data i = Some nan ->
  nth_error (apply_filter data c) i = Some nan.
Proof.
  destruct c as [b a]. intros Hne Hi.
  unfold apply_filter, signal.lfilter, signal.lfilter_zi.
  apply filter_run_nan; auto using norm_b_nonempty.
Qed.

(** C4, as the code has it: [update] tests nothing for finiteness and has
    no failure to report.  For a non-empty block it hands the plots the
    filtered block times [timeScale], the first 30 magnitudes and the six
    averages as computed; a NaN sample at position [i] of the block is a
    NaN at position [i] of the filtered block and of the emitted trace. *)
Theorem update_emits_non_finite (T : Trig float)
  (self : EEGVisualizer float) (i : nat) :
  nth_error (timeSignal self) i = Some nan ->
  notch_filter self <> ([], []) ->
  nth_error (filtered_of self) i = Some nan /\
  nth_error (timeCurve (update self)) i = Some nan /\
  timeCurve (update self)
  = map (fun v => v * of_Z (timeScale self)) (filtered_of self) /\
  freqBars (update self) = firstn 30 (fft_data_of self) /\
  avgBars (update self) = avg_heights (freqs self) (fft_data_of self).
Proof.
  intros Hi Hc.
  assert (Hne : timeSignal self <> []).
  { intros Hnil. rewrite Hnil in Hi. now destruct i. }
  assert (Hf : nth_error (filtered_of self) i = Some nan)
    by now apply apply_filter_nan.
  rewrite (update_nonempty self Hne). cbn [timeCurve freqBars avgBars set_plots].
  repeat split; auto.
  rewrite nth_error_map, Hf. cbn [option_map nmul float_numeric].
  now rewrite mul_nan_l.
Qed.

(** A three-frame block whose second sample is a NaN. *)
Definition nan_block : list (list float) := [[0.5]; [nan]; [0.25]].

(** The NaN block on the sample visualizer, for every [cos], [sin] and
    [tan] of the platform. *)
Lemma update_emits_non_finite_witness :
  nth_error (timeSignal (audio_callback Sample.visualizer nan_block)) 1
  = Some nan /\
  notch_filter (audio_callback Sample.visualizer nan_block) <> ([], []) /\
  forall c s t : float -> float,
    nth_error
      (timeCurve (@update float float_numeric (float_trig c s t)
                          (audio_callback Sample.visualizer nan_block))) 1
    = Some nan.
Proof.
  split; [reflexivity|]. split; [discriminate|].
  intros c s t.
  apply (update_emits_non_finite (float_trig c s t)
           (audio_callback Sample.visualizer nan_block) 1);
    [reflexivity|discriminate].
Defined.

(** C4, refuted as stated: the block [0.5, NaN, 0.25] filters to a block
    with two NaNs, and [update] hands the plot a trace with two NaNs
    instead of failing. *)
Lemma nan_block_is_plotted :
  map PrimFloat.is_finite
      (filtered_of (audio_callback Sample.visualizer nan_block))
  = [true; false; false] /\
  forall c s t : float -> float,
    map PrimFloat.is_nan
        (timeCurve (@update float float_numeric (float_trig c s t)
                            (audio_callback Sample.visualizer nan_block)))
    = [false; true; true].
Proof.
  split; [vm_compute; reflexivity|].
  intros c s t.
  rewrite update_nonempty by discriminate.
  cbn [timeCurve set_plots]. vm_compute. reflexivity.
Qed.
End NaNPropagation.

(* ================================================================== *)
(** * Runs of the step on the exact-arithmetic visualizer *)
(* ================================================================== *)

(** The callback delivered no frame. *)
Lemma update_empty_block_witness :
  length (timeSignal (audio_callback Ideal.visualizer [])) = 0%nat /\
  update (audio_callback Ideal.visualizer [])
  = audio_callback Ideal.visualizer [].
Proof.
  split; [reflexivity|].
  apply (update_empty_block (audio_callback Ideal.visualizer [])).
  reflexivity.
Defined.

(** The 240 zeros the buffer holds before the first audio block. *)
Lemma spectrum_fit_length_witness :
  timeSignal Ideal.visualizer <> [] /\
  fft_data_of Ideal.visualizer
  = dft_magnitudes (filtered_of Ideal.visualizer ++ np.zeros 16) /\
  length (np.fit_length 256 (filtered_of Ideal.visualizer)) = 256%nat.
Proof.
  split; [discriminate|].
  destruct (spectrum_fit_length Ideal.visualizer)
    as (Hfft & _ & _ & Hlen & _ & _ & _ & H240); [discriminate|].
  split; [|exact Hlen].
  rewrite <- H240 by reflexivity. exact Hfft.
Defined.

(* ================================================================== *)
(** * Filter design: which parameters are rejected *)
(* ================================================================== *)

Section DesignValidation.
Local Open Scope R_scope.

Lemma Rleb_spec (x y : R) : reflect (x <= y) (Rleb x y).
Proof. unfold Rleb. destruct (Rle_dec x y); now constructor. Qed.

Lemma Rltb_spec (x y : R) : reflect (x < y) (Rltb x y).
Proof. unfold Rltb. destruct (Rlt_dec x y); now constructor. Qed.

Lemma div_le_0_iff (x d : R) : 0 < d -> (x / d <= 0 <-> x <= 0).
Proof.
  intros Hd. assert (Hx : x = x / d * d) by (field; lra).
  split; intros Hle; nra.
Qed.

Lemma div_lt_0_iff (x d : R) : 0 < d -> (x / d < 0 <-> x < 0).
Proof.
  intros Hd. assert (Hx : x = x / d * d) by (field; lra).
  split; intros Hle; nra.
Qed.

Lemma div_ge_1_iff (x d : R) : 0 < d -> (1 <= x / d <-> d <= x).
Proof.
  intros Hd. assert (Hx : x = x / d * d) by (field; lra).
  split; intros Hle; nra.
Qed.

Lemma div_gt_1_iff (x d : R) : 0 < d -> (1 < x / d <-> d < x).
Proof.
  intros Hd. assert (Hx : x = x / d * d) by (field; lra).
  split; intros Hle; nra.
Qed.

Lemma div_lt_div_iff (x y d : R) : 0 < d -> (x / d < y / d <-> x < y).
Proof.
  intros Hd. assert (Hx : x = x / d * d) by (field; lra).
  assert (Hy : y = y / d * d) by (field; lra).
  split; intros Hlt; nra.
Qed.

(** ** In exact arithmetic *)

(** Over the reals and for a positive sampling rate the tests read in
    terms of the parameters themselves.  The program computes in
    binary64, where the tests see rounded values; that is the subject of
    the section after this one. *)
Lemma create_bandpass_raises_iff (center bandwidth fs : R) :
  0 < fs ->
  (create_bandpass center bandwidth fs = Raise ValueError <->
   center - bandwidth / 2 <= 0 \/ fs / 2 <= center + bandwidth / 2 \/
   bandwidth <= 0).
Proof.
  intros Hfs. unfold create_bandpass, signal.butter_band, ngeb.
  cbn [of_Z nadd nsub nmul ndiv nltb nleb R_numeric].
  rewrite !truediv_nonzero by lra. cbn [bind].
  assert (Hnyq : 0 < 1 / 2 * fs) by lra.
  set (nyq := 1 / 2 * fs) in *.
  pose proof (div_le_0_iff (center - bandwidth / 2) nyq Hnyq) as Hl0.
  pose proof (div_le_0_iff (center + bandwidth / 2) nyq Hnyq) as Hh0.
  pose proof (div_ge_1_iff (center - bandwidth / 2) nyq Hnyq) as Hl1.
  pose proof (div_ge_1_iff (center + bandwidth / 2) nyq Hnyq) as Hh1.
  pose proof (div_lt_div_iff (center - bandwidth / 2)
                             (center + bandwidth / 2) nyq Hnyq) as Hlt.
  destruct (Rleb_spec ((center - bandwidth / 2) / nyq) 0) as [H1|H1];
    cbn [orb]; [split; [lra|reflexivity]|].
  destruct (Rleb_spec ((center + bandwidth / 2) / nyq) 0) as [H2|H2];
    cbn [orb]; [split; [intros _; apply Hh0 in H2; lra|reflexivity]|].
  destruct (Rltb_spec ((center - bandwidth / 2) / nyq)
                      ((center + bandwidth / 2) / nyq)) as [H3|H3];
    cbn [negb]; [|split; [intros _; right; right; lra|reflexivity]].
  destruct (Rleb_spec 1 ((center - bandwidth / 2) / nyq)) as [H4|H4];
    cbn [orb]; [split; [intros _; apply Hl1 in H4; apply Hlt in H3;
                        unfold nyq in H4; lra|reflexivity]|].
  destruct (Rleb_spec 1 ((center + bandwidth / 2) / nyq)) as [H5|H5];
    cbn [orb]; [split; [intros _; apply Hh1 in H5; unfold nyq in H5; lra
                       |reflexivity]|].
  split; [discriminate|].
  apply Hlt in H3. intros [Ha|[Ha|Ha]]; exfalso.
  - apply H1, Hl0, Ha.
  - apply H5, Hh1. unfold nyq. lra.
  - lra.
Qed.

Lemma create_notch_filter_raises_iff (notch_freq fs quality : R) :
  0 < fs ->
  (create_notch_filter notch_freq fs quality = Raise ValueError <->
   notch_freq < 0 \/ fs / 2 < notch_freq).
Proof.
  intros Hfs. unfold create_notch_filter, signal.iirnotch, ngtb.
  cbn [of_Z nadd nsub nmul ndiv nltb nleb R_numeric].
  rewrite truediv_nonzero by lra. cbn [bind].
  assert (Hnyq : 0 < 1 / 2 * fs) by lra.
  set (nyq := 1 / 2 * fs) in *.
  replace (2 * (notch_freq / nyq) / 2) with (notch_freq / nyq)
    by (field; lra).
  pose proof (div_lt_0_iff notch_freq nyq Hnyq) as Hlo.
  pose proof (div_gt_1_iff notch_freq nyq Hnyq) as Hhi.
  unfold nyq in Hhi.
  destruct (Rltb_spec 1 (notch_freq / nyq)) as [H1|H1]; cbn [orb];
    [split; [intros _; apply Hhi in H1; lra|reflexivity]|].
  destruct (Rltb_spec (notch_freq / nyq) 0) as [H2|H2]; cbn [orb];
    [split; [intros _; apply Hlo in H2; lra|reflexivity]|].
  split.
  { unfold truediv.
    match goal with |- context [if ?c then _ else _] => destruct c end;
      cbn [bind]; discriminate. }
  intros [Ha|Ha]; exfalso.
  - apply H2, Hlo, Ha.
  - apply H1, Hhi. lra.
Qed.

End DesignValidation.

(** ** In binary64 *)

Section DesignValidationBinary64.
Local Open Scope float_scope.

(** ** The order of binary64 *)

Lemma SFcompare_flip (x y : spec_float) :
  SFcompare y x = option_map CompOpp (SFcompare x y).
Proof.
  destruct x as [sx|sx| |sx mx ex], y as [sy|sy| |sy my ey]; cbn;
    try reflexivity;
    try (destruct sx; reflexivity); try (destruct sy; reflexivity);
    try (destruct sx, sy; reflexivity).
  change (Pos.compare_cont Eq my mx) with (Pos.compare my mx).
  change (Pos.compare_cont Eq mx my) with (Pos.compare mx my).
  rewrite (Z.compare_antisym ex ey), (Pos.compare_antisym mx my).
  destruct sx, sy; cbn; try reflexivity;
    destruct (ex ?= ey)%Z; cbn; try reflexivity.
  all: destruct (Pos.compare mx my); reflexivity.
Qed.

Lemma SFltb_trans (x y z : spec_float) :
  SFltb x y = true -> SFltb y z = true -> SFltb x z = true.
Proof.
  unfold SFltb.
  destruct x as [sx|sx| |sx mx ex], y as [sy|sy| |sy my ey],
           z as [sz|sz| |sz mz ez]; cbn;
    try discriminate; try (intros _ _; reflexivity);
    try (destruct sx; cbn; try discriminate);
    try (destruct sy; cbn; try discriminate);
    try (destruct sz; cbn; try discriminate);
    try (intros _ _; reflexivity); try (intros; assumption).
  all: fold (Pos.compare mx my); fold (Pos.compare my mz);
       fold (Pos.compare mx mz).
  all: destruct (Z.compare_spec ex ey), (Z.compare_spec ey ez),
         (Z.compare_spec ex ez); try lia; try discriminate;
         try (intros _ _; reflexivity); subst.
  all: destruct (Pos.compare_spec mx my), (Pos.compare_spec my mz),
         (Pos.compare_spec mx mz); cbn; try lia; try discriminate;
         try (intros _ _; reflexivity).
Qed.

(** [<] is transitive. *)
Lemma ltb_trans (x y z : float) :
  (x <? y) = true -> (y <? z) = true -> (x <? z) = true.
Proof. rewrite !FloatAxioms.ltb_spec. apply SFltb_trans. Qed.

(** [x < y] excludes [y <= x]. *)
Lemma ltb_not_leb (x y : float) : (x <? y) = true -> (y <=? x) = false.
Proof.
  rewrite FloatAxioms.ltb_spec, FloatAxioms.leb_spec. unfold SFltb, SFleb.
  rewrite (SFcompare_flip (Prim2SF x) (Prim2SF y)).
  now destruct (SFcompare (Prim2SF x) (Prim2SF y)) as [[| |]|].
Qed.

(** Between two numbers (neither is a NaN: each equals itself), [x <= y]
    failing means [y < x]. *)
Lemma not_leb_ltb (x y : float) :
  (x <=? y) = false -> (x =? x) = true -> (y =? y) = true ->
  (y <? x) = true.
Proof.
  rewrite FloatAxioms.ltb_spec, FloatAxioms.leb_spec, !FloatAxioms.eqb_spec.
  unfold SFltb, SFleb, SFeqb.
  rewrite (SFcompare_flip (Prim2SF x) (Prim2SF y)).
  destruct (Prim2SF x) as [sx|sx| |sx mx ex], (Prim2SF y) as [sy|sy| |sy my ey];
    cbn; try discriminate; try (destruct sx; discriminate);
    try (destruct sy; discriminate);
    try (destruct sx, sy; cbn; discriminate || reflexivity);
    try (destruct sx; cbn; discriminate || reflexivity);
    try (destruct sy; cbn; discriminate || reflexivity).
  all: intros Hle _ _; revert Hle.
  all: destruct sx, sy; cbn; try discriminate; try reflexivity.
  all: destruct (ex ?= ey)%Z; cbn; try discriminate; try reflexivity.
  all: destruct (Pos.compare_cont Eq mx my); cbn; discriminate || reflexivity.
Qed.

Lemma ltb_number_l (x y : float) : (x <? y) = true -> (x =? x) = true.
Proof.
  rewrite FloatAxioms.ltb_spec, FloatAxioms.eqb_spec. unfold SFltb, SFeqb.
  destruct (Prim2SF x) as [sx|sx| |sx mx ex], (Prim2SF y) as [sy|sy| |sy my ey];
    cbn; try discriminate; try reflexivity;
    try (destruct sx; reflexivity).
  all: intros _; rewrite Z.compare_refl;
    change (Pos.compare_cont Eq mx mx) with (Pos.compare mx mx);
    rewrite Pos.compare_refl; now destruct sx.
Qed.

Lemma ltb_number_r (x y : float) : (x <? y) = true -> (y =? y) = true.
Proof.
  rewrite FloatAxioms.ltb_spec, FloatAxioms.eqb_spec. unfold SFltb, SFeqb.
  destruct (Prim2SF x) as [sx|sx| |sx mx ex], (Prim2SF y) as [sy|sy| |sy my ey];
    cbn; try discriminate; try reflexivity;
    try (destruct sy; reflexivity).
  all: intros _; rewrite Z.compare_refl;
    change (Pos.compare_cont Eq my my) with (Pos.compare my my);
    rewrite Pos.compare_refl; now destruct sy.
Qed.

(** Python's [==] as the interface derives it is binary64 equality. *)
Lemma neqb_float (x y : float) : neqb x y = (x =? y).
Proof.
  unfold neqb. cbn [nleb float_numeric].
  rewrite !FloatAxioms.leb_spec, FloatAxioms.eqb_spec. unfold SFleb, SFeqb.
  rewrite (SFcompare_flip (Prim2SF x) (Prim2SF y)).
  now destruct (SFcompare (Prim2SF x) (Prim2SF y)) as [[| |]|].
Qed.

Lemma truediv_float (x y : float) :
  truediv x y = if y =? 0 then Raise ZeroDivisionError else Ok (x / y).
Proof. unfold truediv. now rewrite neqb_float. Qed.

(** scipy's three tests on the band edges amount to [0 < low < high < 1]. *)
Lemma butter_band_float (N : nat) (low high : float) :
  signal.butter_band N low high
  = if (0 <? low) && (low <? high) && (high <? 1)
    then Ok (mk_butter_design N low high) else Raise ValueError.
Proof.
  unfold signal.butter_band, ngeb. cbn [nleb nltb float_numeric].
  change (of_Z 0%Z) with 0. change (of_Z 1%Z) with 1.
  destruct (low <? high) eqn:Hlh; cbn [negb].
  - pose proof (ltb_number_l _ _ Hlh) as Hl.
    pose proof (ltb_number_r _ _ Hlh) as Hh.
    destruct (low <=? 0) eqn:Hl0; cbn [orb].
    + destruct (0 <? low) eqn:H0l; [|reflexivity].
      apply ltb_not_leb in H0l. congruence.
    + rewrite (not_leb_ltb _ _ Hl0 Hl eq_refl). cbn [andb].
      assert (H0h : (0 <? high) = true)
        by (apply ltb_trans with low;
            [apply (not_leb_ltb _ _ Hl0 Hl eq_refl)|exact Hlh]).
      rewrite (ltb_not_leb _ _ H0h). cbn [orb].
      destruct (high <? 1) eqn:Hh1.
      * rewrite (ltb_not_leb _ _ Hh1).
        rewrite (ltb_not_leb _ _ (ltb_trans _ _ _ Hlh Hh1)). reflexivity.
      * destruct (1 <=? high) eqn:H1h; [now rewrite orb_true_r|].
        rewrite (not_leb_ltb _ _ H1h eq_refl Hh) in Hh1. discriminate.
  - rewrite andb_false_r. cbn [andb].
    now destruct ((low <=? 0) || (high <=? 0)).
Qed.

Lemma create_bandpass_float (center bandwidth fs : float) :
  create_bandpass center bandwidth fs
  = if 0.5 * fs =? 0 then Raise ZeroDivisionError
    else signal.butter_band 4 ((center - bandwidth / 2) / (0.5 * fs))
                              ((center + bandwidth / 2) / (0.5 * fs)).
Proof.
  unfold create_bandpass. rewrite !truediv_float.
  cbn [nadd nsub nmul ndiv float_numeric].
  change (of_Z 1%Z) with 1. change (of_Z 2%Z) with 2.
  change (1 / 2) with 0.5.
  now destruct (0.5 * fs =? 0).
Qed.

Lemma create_notch_filter_float (T : Trig float)
  (notch_freq fs quality : float) :
  create_notch_filter notch_freq fs quality
  = if 0.5 * fs =? 0 then Raise ZeroDivisionError
    else
      let w0 := 2 * (notch_freq / (0.5 * fs)) / 2 in
      if (1 <? w0) || (w0 <? 0) then Raise ValueError
      else if quality =? 0 then Raise ZeroDivisionError
      else
        let gain := 1 / (1 + np_tan (w0 / quality * np_pi / 2)) in
        Ok ([gain * 1; gain * (-2 * np_cos (w0 * np_pi)); gain * 1],
            [1; -2 * gain * np_cos (w0 * np_pi); 2 * gain - 1]).
Proof.
  unfold create_notch_filter, signal.iirnotch, ngtb.
  rewrite !truediv_float.
  cbn [nadd nsub nmul ndiv nltb float_numeric].
  change (of_Z 0%Z) with 0. change (of_Z 1%Z) with 1.
  change (of_Z 2%Z) with 2. change (of_Z (-2)%Z) with (-2).
  change (1 / 2) with 0.5.
  destruct (0.5 * fs =? 0); [reflexivity|]. cbn [bind]. cbv zeta.
  destruct ((1 <? 2 * (notch_freq / (0.5 * fs)) / 2)
            || (2 * (notch_freq / (0.5 * fs)) / 2 <? 0)); [reflexivity|].
  rewrite truediv_float.
  destruct (quality =? 0); reflexivity.
Qed.

(** C3, as the code has it.  The program tests nothing itself and has
    no error type of its own: a design fails where Python's division or
    scipy raises, and the tests are on the values as computed in binary64.
    With [nyq = 0.5 * fs], both designs end in [ZeroDivisionError] when
    [nyq == 0].  Otherwise [create_bandpass] returns a design exactly when
    the computed edges [low = (center - bandwidth/2) / nyq] and
    [high = (center + bandwidth/2) / nyq] satisfy [0 < low < high < 1],
    and ends in [ValueError] in every other case (a NaN edge included).
    [create_notch_filter] ends in [ValueError] exactly when the computed
    [w0 = 2 * (notch_freq / nyq) / 2] is below 0 or above 1, in
    [ZeroDivisionError] when [w0] passes and [quality == 0], and returns
    three and three coefficients, the leading denominator coefficient
    exactly 1, in every other case: also at [w0 = 0], at [w0 = 1] and for
    a NaN.  This holds for every [cos], [sin] and [tan]. *)
Theorem design_rejects_out_of_range (T : Trig float)
  (center bandwidth notch_freq quality fs : float) :
  let nyq := 0.5 * fs in
  let low := (center - bandwidth / 2) / nyq in
  let high := (center + bandwidth / 2) / nyq in
  let w0 := 2 * (notch_freq / nyq) / 2 in
  (create_bandpass center bandwidth fs = Raise ZeroDivisionError <->
   (nyq =? 0) = true) /\
  (create_bandpass center bandwidth fs = Raise ValueError <->
   (nyq =? 0) = false /\
   (0 <? low) && (low <? high) && (high <? 1) = false) /\
  (create_bandpass center bandwidth fs = Ok (mk_butter_design 4 low high) <->
   (nyq =? 0) = false /\
   (0 <? low) && (low <? high) && (high <? 1) = true) /\
  (create_notch_filter notch_freq fs quality = Raise ValueError <->
   (nyq =? 0) = false /\ (w0 <? 0) || (1 <? w0) = true) /\
  (create_notch_filter notch_freq fs quality = Raise ZeroDivisionError <->
   (nyq =? 0) = true \/
   ((w0 <? 0) || (1 <? w0) = false /\ (quality =? 0) = true)) /\
  ((exists b0 b1 b2 a1 a2 : float,
       create_notch_filter notch_freq fs quality
       = Ok ([b0; b1; b2], [1; a1; a2])) <->
   (nyq =? 0) = false /\ (w0 <? 0) || (1 <? w0) = false /\
   (quality =? 0) = false).
Proof.
  cbv zeta.
  rewrite create_bandpass_float, create_notch_filter_float, butter_band_float.
  cbv zeta.
  rewrite (orb_comm (1 <? 2 * (notch_freq / (0.5 * fs)) / 2)).
  destruct (0.5 * fs =? 0);
    [|destruct ((0 <? (center - bandwidth / 2) / (0.5 * fs))
                && ((center - bandwidth / 2) / (0.5 * fs)
                    <? (center + bandwidth / 2) / (0.5 * fs))
                && ((center + bandwidth / 2) / (0.5 * fs) <? 1));
      destruct ((2 * (notch_freq / (0.5 * fs)) / 2 <? 0)
                || (1 <? 2 * (notch_freq / (0.5 * fs)) / 2));
      [|destruct (quality =? 0)| |destruct (quality =? 0)]].
  all: repeat match goal with
              | |- _ /\ _ => split
              | |- _ <-> _ => split
              | |- _ -> _ => intro
              | H : _ /\ _ |- _ => destruct H
              | H : _ \/ _ |- _ => destruct H
              | H : exists _, _ |- _ => destruct H
              end;
       try discriminate; try reflexivity;
       try (left; reflexivity); try (right; split; reflexivity);
       try (do 5 eexists; reflexivity).
Qed.


(** At 256 Hz: a band 126.5 to 128.5 Hz is rejected, the alpha band of
    [__init__] is designed, and a sampling rate of 0 divides by zero. *)
Lemma design_rejects_out_of_range_witness :
  create_bandpass 127.5 2 256 = Raise ValueError /\
  create_bandpass 12 2 256 = Ok Sample.alpha_12 /\
  create_bandpass 12 2 0 = Raise ZeroDivisionError.
Proof.
  pose (T := float_trig (fun x => x) (fun x => x) (fun x => x)).
  split; [|split].
  - apply (proj1 (proj2 (design_rejects_out_of_range T 127.5 2 60 30 256))).
    split; reflexivity.
  - apply (proj1 (proj2 (proj2
                    (design_rejects_out_of_range T 12 2 60 30 256)))).
    split; reflexivity.
  - apply (proj1 (design_rejects_out_of_range T 12 2 60 30 0)).
    reflexivity.
Defined.

(** C3, refuted as stated.  A notch centre of 0 Hz lies outside
    (0, fs/2), yet the design returns coefficients; with [cos 0 = 1] and
    [tan 0 = 0] they are [b = a = [1, -2, 1]], whose denominator
    [1 - 2/z + 1/z^2] vanishes at [z = 1], on the unit circle.  A centre
    of [-2^-1074] Hz, below 0, is accepted as well (the division by
    [nyq] rounds it to [-0.0]), and so is a NaN.  A quality of 0 ends in
    [ZeroDivisionError], not in a validation error. *)
Lemma notch_at_zero_hertz_is_accepted :
  (forall c s t : float -> float,
      c 0 = 1 -> t 0 = 0 ->
      @create_notch_filter float float_numeric (float_trig c s t) 0 256 30
      = Ok ([1; -2; 1], [1; -2; 1])) /\
  1 + -2 + 1 = 0 /\
  (forall c s t : float -> float,
      exists ba : coeffs float,
        @create_notch_filter float float_numeric (float_trig c s t)
          (-0x1p-1074) 256 30 = Ok ba) /\
  (forall c s t : float -> float,
      exists ba : coeffs float,
        @create_notch_filter float float_numeric (float_trig c s t)
          nan 256 30 = Ok ba) /\
  (forall c s t : float -> float,
      @create_notch_filter float float_numeric (float_trig c s t)
        60 256 0 = Raise ZeroDivisionError).
Proof.
  split; [|split; [reflexivity|split; [|split]]].
  - intros c s t Hc Ht. rewrite create_notch_filter_float.
    vm_compute. rewrite Hc, Ht. reflexivity.
  - intros c s t. eexists. rewrite create_notch_filter_float.
    vm_compute. reflexivity.
  - intros c s t. eexists. rewrite create_notch_filter_float.
    vm_compute. reflexivity.
  - intros c s t. rewrite create_notch_filter_float. reflexivity.
Qed.

(** The decision is on the rounded edges: the band of centre 64 Hz and
    width [128 - 2^-46] Hz has both real edges strictly inside (0, 128),
    but the upper one rounds to 128 and the design is refused. *)
Example bandpass_decided_on_rounded_edges :
  (0 <? 64 - 0x1.fffffffffffffp+6 / 2) = true /\
  (0x1.fffffffffffffp+6 / 2 <? 64) = true /\
  64 + 0x1.fffffffffffffp+6 / 2 = 128 /\
  create_bandpass 64 0x1.fffffffffffffp+6 256 = Raise ValueError.
Proof. repeat split. Qed.
End DesignValidationBinary64.

(* ================================================================== *)
(** * The numbers of the 60 Hz notch *)
(* ================================================================== *)

Section NotchNumbers.
Local Open Scope R_scope.

Lemma PI_gt_3 : 3 < PI.
Proof. pose proof PI2_3_2. lra. Qed.

Lemma sqrt2_bounds : 1.41 < sqrt 2 < 1.42.
Proof.
  split.
  - rewrite <- (sqrt_square 1.41) by lra. apply sqrt_lt_1_alt. lra.
  - rewrite <- (sqrt_square 1.42) by lra. apply sqrt_lt_1_alt. lra.
Qed.

Lemma sin_PI4_bounds : 0.704 < sin (PI / 4) < 0.71.
Proof.
  rewrite sin_PI4. pose proof sqrt2_bounds as [Hlo Hhi].
  assert (Hs : sqrt 2 * (1 / sqrt 2) = 1) by (field; lra).
  split; nra.
Qed.

(** Halving an angle of the first quadrant at most halves its sine. *)
Lemma sin_double_le (x : R) : 0 <= x <= PI / 2 -> sin (2 * x) <= 2 * sin x.
Proof.
  intros [Hlo Hhi]. rewrite sin_2a.
  pose proof (COS_bound x) as [_ Hc].
  assert (Hs : 0 <= sin x) by (apply sin_ge_0; pose proof PI_gt_3; lra).
  nra.
Qed.

Lemma sin_PI32_lower : 0.088 < sin (PI / 32).
Proof.
  pose proof PI_gt_3 as Hpi. pose proof PI_4 as Hpi4.
  pose proof sin_PI4_bounds as [H4 _].
  pose proof (sin_double_le (PI / 8)) as H8.
  pose proof (sin_double_le (PI / 16)) as H16.
  pose proof (sin_double_le (PI / 32)) as H32.
  replace (2 * (PI / 8)) with (PI / 4) in H8 by field.
  replace (2 * (PI / 16)) with (PI / 8) in H16 by field.
  replace (2 * (PI / 32)) with (PI / 16) in H32 by field.
  lra.
Qed.

Lemma sin_PI128_lower : 0.022 < sin (PI / 128).
Proof.
  pose proof PI_gt_3 as Hpi. pose proof PI_4 as Hpi4.
  pose proof sin_PI32_lower as H32.
  pose proof (sin_double_le (PI / 64)) as H64.
  pose proof (sin_double_le (PI / 128)) as H128.
  replace (2 * (PI / 64)) with (PI / 32) in H64 by field.
  replace (2 * (PI / 128)) with (PI / 64) in H128 by field.
  lra.
Qed.

(** The centre of the notch: [cos (15 PI / 32) = sin (PI / 32)]. *)
Lemma c0_sin : Ideal.c0 = sin (PI / 32).
Proof.
  unfold Ideal.c0. rewrite <- cos_shift. f_equal. field.
Qed.

Lemma c0_bounds : 0.088 < Ideal.c0 < 1 / 2.
Proof.
  pose proof PI_gt_3 as Hpi. pose proof PI_4 as Hpi4. split.
  - rewrite c0_sin. apply sin_PI32_lower.
  - unfold Ideal.c0. rewrite <- cos_PI3.
    apply cos_decreasing_1; lra.
Qed.

Lemma cos_PI128_lower : 1 / 2 < cos (PI / 128).
Proof.
  pose proof PI_gt_3 as Hpi. pose proof PI_4 as Hpi4.
  rewrite <- cos_PI3. apply cos_decreasing_1; lra.
Qed.

Lemma beta_bounds : 0.022 < Ideal.beta < 1 / 16.
Proof.
  pose proof PI_gt_3 as Hpi. pose proof PI_4 as Hpi4.
  pose proof sin_PI128_lower as Hs.
  pose proof cos_PI128_lower as Hc.
  pose proof (COS_bound (PI / 128)) as [_ Hc1].
  assert (Hsx : sin (PI / 128) < PI / 128) by (apply sin_lt_x; lra).
  unfold Ideal.beta, tan.
  assert (Ht : sin (PI / 128) = sin (PI / 128) / cos (PI / 128) * cos (PI / 128))
    by (field; lra).
  split; nra.
Qed.

Lemma gain_bounds : 0.94 < Ideal.gain < 0.979.
Proof.
  pose proof beta_bounds as [Hlo Hhi]. unfold Ideal.gain.
  assert (Hg : (1 + Ideal.beta) * (1 / (1 + Ideal.beta)) = 1) by (field; lra).
  split; nra.
Qed.

Lemma gain_beta : Ideal.gain * (1 + Ideal.beta) = 1.
Proof.
  pose proof beta_bounds as [Hlo Hhi]. unfold Ideal.gain. field. lra.
Qed.
End NotchNumbers.

(* ================================================================== *)
(** * Consecutive blocks *)
(* ================================================================== *)

Section Streaming.
Context {A : Type} `{Numeric A}.

(** A stream of blocks filtered with the delay line carried from each
    block to the next, in the words of the specification. *)
Fixpoint filter_blocks_carrying (b a z : list A) (blocks : list (list A))
  : list (list A) :=
  match blocks with
  | [] => []
  | blk :: rest =>
      let '(y, z') := signal.lfilter_zi b a blk z in
      y :: filter_blocks_carrying b a z' rest
  end.

(** The same stream as the program filters it: one [apply_filter] call per
    block. *)
Definition filter_blocks (c : coeffs A) (blocks : list (list A))
  : list (list A) :=
  map (fun blk => apply_filter blk c) blocks.

Lemma filter_blocks_carrying_concat (b a z : list A) (blocks : list (list A)) :
  concat (filter_blocks_carrying b a z blocks)
  = fst (signal.lfilter_zi b a (concat blocks) z).
Proof.
  revert z. induction blocks as [|blk rest IH]; intros z; [reflexivity|].
  cbn [filter_blocks_carrying concat]. unfold signal.lfilter_zi in *.
  rewrite filter_run_app.
  destruct (signal.filter_run (signal.norm_b b a) (signal.norm_a b a) z blk)
    as [y z'].
  cbn [concat]. rewrite IH.
  now destruct (signal.filter_run (signal.norm_b b a) (signal.norm_a b a)
                                  z' (concat rest)).
Qed.

Lemma apply_filter_prefix (c : coeffs A) (x1 x2 : list A) :
  firstn (length x1) (apply_filter (x1 ++ x2) c) = apply_filter x1 c.
Proof.
  destruct c as [b a].
  unfold apply_filter, signal.lfilter, signal.lfilter_zi.
  rewrite filter_run_app.
  pose proof (filter_run_length (signal.norm_b b a) (signal.norm_a b a)
                                x1 (signal.zero_state b a)) as Hlen.
  destruct (signal.filter_run (signal.norm_b b a) (signal.norm_a b a)
                              (signal.zero_state b a) x1) as [y1 z1].
  destruct (signal.filter_run (signal.norm_b b a) (signal.norm_a b a) z1 x2)
    as [y2 z2].
  cbn [fst] in *. rewrite <- Hlen, firstn_app, Nat.sub_diag, firstn_all.
  cbn [firstn]. apply app_nil_r.
Qed.

(** C1, as the code has it.  [apply_filter] keeps no delay line: every
    call starts the recursion from rest.  The single pass over the
    concatenated signal equals the block-by-block outputs when the delay
    line is carried from block to block; the program's calls agree with
    the single pass on the first block, and filter every block as if
    nothing had preceded it. *)
Theorem apply_filter_restarts_each_block (c : coeffs A)
  (blocks : list (list A)) :
  concat (filter_blocks_carrying (fst c) (snd c)
                                 (signal.zero_state (fst c) (snd c)) blocks)
  = apply_filter (concat blocks) c /\
  filter_blocks c blocks
  = map (fun blk =>
           fst (signal.lfilter_zi (fst c) (snd c) blk
                                  (signal.zero_state (fst c) (snd c))))
        blocks /\
  (forall blk rest, blocks = blk :: rest ->
     firstn (length blk) (apply_filter (concat blocks) c)
     = hd [] (filter_blocks c blocks)).
Proof.
  destruct c as [b a]. cbn [fst snd]. split; [|split].
  - apply filter_blocks_carrying_concat.
  - reflexivity.
  - intros blk rest ->. cbn [concat filter_blocks map hd].
    apply apply_filter_prefix.
Qed.
End Streaming.

Section StreamingCounterexample.
Local Open Scope R_scope.

(** C1, refuted as stated: the designed 60 Hz notch applied to the signal
    [1, 0] in one pass, and to its two blocks [1] and [0] call by call.
    The first outputs agree; the second block-wise output is 0, the
    second single-pass output is below -0.003: a discontinuity at the
    block boundary far beyond rounding error. *)
Lemma notch_blocks_differ_from_single_pass :
  let y_full := apply_filter [1; 0] Ideal.notch_60 in
  let y_blocks := concat (filter_blocks Ideal.notch_60 [[1]; [0]]) in
  create_notch_filter (A:=R) 60 256 30 = Ok Ideal.notch_60 /\
  nth 0 y_full 0 = nth 0 y_blocks 0 /\
  nth 1 y_blocks 0 = 0 /\
  nth 1 y_full 0 - nth 1 y_blocks 0 < - (3 / 1000) /\
  y_full <> y_blocks.
Proof.
  cbv zeta.
  assert (Hgap :
    nth 1 (apply_filter [1; 0] Ideal.notch_60) 0
    - nth 1 (concat (filter_blocks Ideal.notch_60 [[1]; [0]])) 0
    < - (3 / 1000)).
  { cbv beta iota zeta delta
      [apply_filter signal.lfilter signal.lfilter_zi signal.filter_run
       signal.filter_step signal.next_delays signal.norm_b signal.norm_a
       signal.normalize signal.pad_coeffs signal.zero_state np.zeros
       Ideal.notch_60 length Nat.max Nat.sub repeat map app hd fst snd nth
       of_Z nadd nsub nmul ndiv R_numeric concat filter_blocks].
    pose proof gain_bounds as [Hg0 Hg1]. pose proof c0_bounds as [Hc0 Hc1].
    pose proof beta_bounds as [Hb0 Hb1]. pose proof gain_beta as Hgb.
    set (p := Ideal.gain * Ideal.c0).
    set (q := Ideal.gain * Ideal.beta).
    assert (Hp : 0.0827 < p) by (unfold p; nra).
    assert (Hq : 0.0206 < q) by (unfold q; nra).
    assert (Hq1 : q = 1 - Ideal.gain) by (unfold q; lra).
    replace (0 + 1 * (Ideal.gain * (-2 * Ideal.c0) / 1)
             - (0 + Ideal.gain * 1 / 1 * 1)
               * (-2 * Ideal.gain * Ideal.c0 / 1)
             + Ideal.gain * 1 / 1 * 0 - (0 + Ideal.gain * 1 / 1 * 0))
      with (- (2 * p * q)) by (rewrite Hq1; unfold p; field).
    nra. }
  split; [apply create_notch_filter_60|].
  split; [reflexivity|]. split.
  - cbv beta iota zeta delta
      [apply_filter signal.lfilter signal.lfilter_zi signal.filter_run
       signal.filter_step signal.next_delays signal.norm_b signal.norm_a
       signal.normalize signal.pad_coeffs signal.zero_state np.zeros
       Ideal.notch_60 length Nat.max Nat.sub repeat map app hd fst snd nth
       of_Z nadd nsub nmul ndiv R_numeric concat filter_blocks].
    field.
  - split; [exact Hgap|].
    intros Heq. rewrite Heq in Hgap. lra.
Qed.
End StreamingCounterexample.

(* ================================================================== *)
(** * Response of a second-order section to a driven input *)
(* ================================================================== *)

(** The recursion of [lfilter] for three coefficients [b0, b1, b2] and
    [1, a1, a2], driven by samples [x 0, x 1, ...] of a signal [x], against
    a signal [s] that satisfies the difference equation of the filter at
    all times.  The output is [s] plus a transient that obeys the
    undriven recursion, and the transient dies out when both poles lie
    inside the unit circle. *)
Section SecondOrderResponse.
Local Open Scope R_scope.

Variables b0 b1 b2 a1 a2 : R.

(** The undriven recursion on the delay line. *)
Definition err_step (e : R * R) : R * R :=
  (snd e - a1 * fst e, - a2 * fst e).

Fixpoint err_after (k : nat) (e : R * R) : R * R :=
  match k with
  | O => e
  | S k' => err_after k' (err_step e)
  end.

(** A quadratic form that the undriven recursion scales by [a2]. *)
Definition energy (e : R * R) : R :=
  a2 * (fst e * fst e) - a1 * (fst e * snd e) + snd e * snd e.

Lemma energy_step (e : R * R) : energy (err_step e) = a2 * energy e.
Proof. unfold energy, err_step. cbn [fst snd]. ring. Qed.

Lemma energy_after (k : nat) (e : R * R) :
  energy (err_after k e) = a2 ^ k * energy e.
Proof.
  revert e. induction k as [|k IH]; intros e; cbn [err_after pow].
  - ring.
  - rewrite IH, energy_step. ring.
Qed.

Section Decay.
Hypothesis a2_range : 0 < a2 < 1.
Hypothesis complex_poles : a1 * a1 < 4 * a2.

Lemma energy_dominates (e : R * R) :
  (a2 - a1 * a1 / 4) * (fst e * fst e) <= energy e.
Proof.
  unfold energy. destruct e as [e0 e1]. cbn [fst snd].
  pose proof (Rle_0_sqr (e1 - a1 * e0 / 2)) as Hsq. unfold Rsqr in Hsq.
  nra.
Qed.

Lemma energy_nonneg (e : R * R) : 0 <= energy e.
Proof.
  pose proof (energy_dominates e) as Hd.
  pose proof (Rle_0_sqr (fst e)) as Hsq. unfold Rsqr in Hsq.
  nra.
Qed.

(** The transient falls below every positive bound. *)
Lemma transient_vanishes (e : R * R) (eps : R) :
  0 < eps ->
  exists N0 : nat, forall k : nat,
      (N0 <= k)%nat -> Rabs (fst (err_after k e)) <= eps.
Proof.
  intros Heps.
  set (kappa := a2 - a1 * a1 / 4).
  assert (Hk : 0 < kappa) by (unfold kappa; lra).
  pose proof (energy_nonneg e) as HW.
  assert (Hy : 0 < eps * eps * kappa / (energy e + 1)).
  { apply Rdiv_lt_0_compat; [|lra].
    repeat apply Rmult_lt_0_compat; lra. }
  destruct (pow_lt_1_zero a2) with (y := eps * eps * kappa / (energy e + 1))
    as [N0 HN0]; [rewrite Rabs_pos_eq; lra|exact Hy|].
  exists N0. intros k Hle.
  specialize (HN0 k Hle).
  assert (Hpow : 0 < a2 ^ k) by (apply pow_lt; lra).
  rewrite Rabs_pos_eq in HN0 by lra.
  pose proof (energy_dominates (err_after k e)) as Hd.
  rewrite energy_after in Hd. fold kappa in Hd.
  set (v := fst (err_after k e)) in *.
  assert (Hlt : a2 ^ k * (energy e + 1) < eps * eps * kappa).
  { assert (Hq : eps * eps * kappa / (energy e + 1) * (energy e + 1)
                 = eps * eps * kappa) by (field; lra).
    nra. }
  assert (Hv : v * v <= eps * eps) by nra.
  apply Rsqr_le_abs_0 in Hv. rewrite (Rabs_pos_eq eps) in Hv by lra.
  exact Hv.
Qed.
End Decay.

Section Driven.
Variables x s : R -> R.
Hypothesis difference_equation :
  forall t : R,
    s t + a1 * s (t - 1) + a2 * s (t - 2)
    = b0 * x t + b1 * x (t - 1) + b2 * x (t - 2).

(** The delay line of the recursion when its output is exactly [s]. *)
Definition settled0 (t : R) : R :=
  b1 * x t + b2 * x (t - 1) - a1 * s t - a2 * s (t - 1).
Definition settled1 (t : R) : R :=
  b2 * x t - a2 * s t.

Lemma filter_step_driven (t e0 e1 : R) :
  signal.filter_step [b0; b1; b2] [1; a1; a2]
                     [settled0 t + e0; settled1 t + e1] (x (t + 1))
  = (s (t + 1) + e0,
     [settled0 (t + 1) + fst (err_step (e0, e1));
      settled1 (t + 1) + snd (err_step (e0, e1))]).
Proof.
  pose proof (difference_equation (t + 1)) as Hd.
  replace (t + 1 - 1) with t in Hd by ring.
  replace (t + 1 - 2) with (t - 1) in Hd by ring.
  unfold signal.filter_step, signal.next_delays, err_step, settled0, settled1.
  cbn [nadd nsub nmul R_numeric fst snd].
  replace (t + 1 - 1) with t by ring.
  f_equal; [lra|]. f_equal; [nra|]. f_equal. nra.
Qed.

Lemma filter_run_driven (N : nat) :
  forall (t e0 e1 : R) (k : nat),
    (k < N)%nat ->
    nth k (fst (signal.filter_run
                  [b0; b1; b2] [1; a1; a2]
                  [settled0 t + e0; settled1 t + e1]
                  (map (fun n => x (t + 1 + INR n)) (seq 0 N)))) 0
    = s (t + 1 + INR k) + fst (err_after k (e0, e1)).
Proof.
  induction N as [|N IH]; intros t e0 e1 k Hk; [lia|].
  cbn [seq map signal.filter_run].
  replace (t + 1 + INR 0) with (t + 1) by (cbn [INR]; ring).
  rewrite filter_step_driven.
  rewrite <- seq_shift, map_map.
  rewrite (map_ext (fun n => x (t + 1 + INR (S n)))
                   (fun n => x (t + 1 + 1 + INR n)))
    by (intros n; rewrite S_INR; f_equal; ring).
  specialize (IH (t + 1) (fst (err_step (e0, e1)))
                 (snd (err_step (e0, e1)))).
  destruct (signal.filter_run _ _ _ _) as [ys zf].
  destruct k as [|k]; cbn [nth fst err_after].
  - cbn [INR]. replace (t + 1 + 0) with (t + 1) by ring. reflexivity.
  - cbn [fst] in IH. rewrite IH by lia.
    rewrite S_INR. replace (t + 1 + (INR k + 1)) with (t + 1 + 1 + INR k) by ring.
    now rewrite <- surjective_pairing.
Qed.

(** From rest, output [n] is [s n] plus the transient started by the
    delay line the settled recursion would have had before sample 0. *)
Lemma lfilter_driven (N n : nat) :
  (n < N)%nat ->
  nth n (fst (signal.filter_run
                [b0; b1; b2] [1; a1; a2] [0; 0]
                (map (fun i => x (INR i)) (seq 0 N)))) 0
  = s (INR n) + fst (err_after n (- settled0 (-1), - settled1 (-1))).
Proof.
  intros Hn.
  pose proof (filter_run_driven N (-1) (- settled0 (-1)) (- settled1 (-1)) n Hn)
    as Hrun.
  replace (settled0 (-1) + - settled0 (-1)) with 0 in Hrun by ring.
  replace (settled1 (-1) + - settled1 (-1)) with 0 in Hrun by ring.
  rewrite (map_ext (fun i => x (-1 + 1 + INR i)) (fun i => x (INR i))) in Hrun
    by (intros i; f_equal; ring).
  rewrite Hrun. f_equal. f_equal. ring.
Qed.
End Driven.
End SecondOrderResponse.

(* ================================================================== *)
(** * The notch on pure tones *)
(* ================================================================== *)

Section NotchResponse.
Local Open Scope R_scope.

(** [N] samples of a tone of frequency [freq] Hz taken at [rate] Hz. *)
Definition sinusoid (amplitude freq rate phase : R) (N : nat) : list R :=
  map (fun n => amplitude * sin (2 * PI * freq / rate * INR n + phase))
      (seq 0 N).

(** An amplitude ratio in decibels. *)
Definition decibels (ratio : R) : R := 20 * (ln ratio / ln 10).

Lemma apply_notch_60 (x : list R) :
  apply_filter x Ideal.notch_60
  = fst (signal.filter_run
           [Ideal.gain; -2 * Ideal.gain * Ideal.c0; Ideal.gain]
           [1; -2 * Ideal.gain * Ideal.c0; 2 * Ideal.gain - 1]
           [0; 0] x).
Proof.
  unfold apply_filter, Ideal.notch_60, signal.lfilter, signal.lfilter_zi.
  f_equal. f_equal.
  - unfold signal.norm_b, signal.normalize, signal.pad_coeffs.
    cbn [length Nat.max Nat.sub np.zeros repeat app map hd of_Z ndiv R_numeric].
    repeat (f_equal; try field).
  - unfold signal.norm_a, signal.normalize, signal.pad_coeffs.
    cbn [length Nat.max Nat.sub np.zeros repeat app map hd of_Z ndiv R_numeric].
    repeat (f_equal; try field).
Qed.

(** A tone [A sin (w t + phi)] and the tone [A (P sin + Q cos)] of the
    same frequency satisfy the difference equation of the notch when
    [(P, Q)] solves the two-by-two system of the frequency response. *)
Lemma notch_difference_equation (g c A w phi P Q : R) :
  P * (2 * g * (cos w - c)) - Q * (2 * (1 - g) * sin w)
  = 2 * g * (cos w - c) ->
  P * (2 * (1 - g) * sin w) + Q * (2 * g * (cos w - c)) = 0 ->
  forall t : R,
    A * (P * sin (w * t + phi) + Q * cos (w * t + phi))
    + -2 * g * c * (A * (P * sin (w * (t - 1) + phi)
                         + Q * cos (w * (t - 1) + phi)))
    + (2 * g - 1) * (A * (P * sin (w * (t - 2) + phi)
                          + Q * cos (w * (t - 2) + phi)))
    = g * (A * sin (w * t + phi))
      + -2 * g * c * (A * sin (w * (t - 1) + phi))
      + g * (A * sin (w * (t - 2) + phi)).
Proof.
  intros HP HQ t.
  set (th := w * (t - 1) + phi).
  replace (w * t + phi) with (th + w) by (unfold th; ring).
  replace (w * (t - 2) + phi) with (th - w) by (unfold th; ring).
  rewrite sin_plus, cos_plus, sin_minus, cos_minus.
  apply Rminus_diag_uniq.
  transitivity
    (A * (sin th * (P * (2 * g * (cos w - c)) - Q * (2 * (1 - g) * sin w)
                    - 2 * g * (cos w - c))
          + cos th * (P * (2 * (1 - g) * sin w)
                      + Q * (2 * g * (cos w - c))))).
  - ring.
  - rewrite HP, HQ. ring.
Qed.

(** On a tone, the output of the designed notch approaches the tone
    [A (P sin + Q cos)]. *)
Lemma notch_settles (A w phi P Q : R) :
  P * (2 * Ideal.gain * (cos w - Ideal.c0))
  - Q * (2 * (1 - Ideal.gain) * sin w)
  = 2 * Ideal.gain * (cos w - Ideal.c0) ->
  P * (2 * (1 - Ideal.gain) * sin w)
  + Q * (2 * Ideal.gain * (cos w - Ideal.c0)) = 0 ->
  forall eps : R, 0 < eps ->
    exists N0 : nat, forall N n : nat,
        (N0 <= n < N)%nat ->
        Rabs (nth n (apply_filter
                       (map (fun i => A * sin (w * INR i + phi)) (seq 0 N))
                       Ideal.notch_60) 0
              - A * (P * sin (w * INR n + phi) + Q * cos (w * INR n + phi)))
        <= eps.
Proof.
  intros HP HQ eps Heps.
  pose proof gain_bounds as [Hg0 Hg1]. pose proof c0_bounds as [Hc0 Hc1].
  set (x := fun t : R => A * sin (w * t + phi)).
  set (s := fun t : R => A * (P * sin (w * t + phi) + Q * cos (w * t + phi))).
  set (a1 := -2 * Ideal.gain * Ideal.c0).
  set (a2 := 2 * Ideal.gain - 1).
  assert (Ha2 : 0 < a2 < 1) by (unfold a2; lra).
  assert (Hpoles : a1 * a1 < 4 * a2).
  { assert (Hp : 0 < Ideal.gain * Ideal.c0 < 0.49) by nra.
    replace (a1 * a1)
      with (4 * ((Ideal.gain * Ideal.c0) * (Ideal.gain * Ideal.c0)))
      by (unfold a1; ring).
    unfold a2. nra. }
  destruct (transient_vanishes a1 a2 Ha2 Hpoles
              (- settled0 a1 Ideal.gain a1 a2 x s (-1),
               - settled1 Ideal.gain a2 x s (-1)) eps Heps) as [N0 HN0].
  exists N0. intros N n [Hlo Hhi].
  rewrite apply_notch_60.
  pose proof (lfilter_driven Ideal.gain a1 Ideal.gain a1 a2 x s) as Hrun.
  unfold a1, a2, x, s in Hrun.
  rewrite (Hrun (notch_difference_equation Ideal.gain Ideal.c0 A w phi P Q HP HQ)
                N n Hhi).
  fold a1. fold a2. fold x. fold s.
  match goal with
  | |- Rabs (?u + ?v - ?u') <= _ => replace (u + v - u') with v by ring
  end.
  apply HN0, Hlo.
Qed.
End NotchResponse.

Section NotchTones.
Local Open Scope R_scope.

Lemma sqrt3_lower : 1.7 < sqrt 3.
Proof.
  rewrite <- (sqrt_square 1.7) by lra. apply sqrt_lt_1_alt. lra.
Qed.

Lemma cos_10_hertz_lower : 0.85 < cos (2 * PI * 10 / 256).
Proof.
  pose proof PI_gt_3 as Hpi. pose proof PI_4 as Hpi4.
  pose proof sqrt3_lower as H3.
  assert (Hlt : cos (PI / 6) < cos (2 * PI * 10 / 256))
    by (apply cos_decreasing_1; lra).
  rewrite cos_PI6 in Hlt. lra.
Qed.

Lemma cos_60_hertz : cos (2 * PI * 60 / 256) = Ideal.c0.
Proof. unfold Ideal.c0. f_equal. field. Qed.

Lemma ln_10_pos : 0 < ln 10.
Proof. rewrite <- ln_1. apply ln_increasing; lra. Qed.

(** A ratio above 0.95 is less than one decibel down. *)
Lemma decibels_above (G : R) : 0.95 <= G -> -1 < decibels G.
Proof.
  intros HG. unfold decibels. pose proof ln_10_pos as H10.
  assert (Hpow : / 10 < G ^ 20).
  { apply Rlt_le_trans with (0.95 ^ 20).
    - cbn [pow]. lra.
    - apply pow_incr. lra. }
  assert (Hln : ln (/ 10) < ln (G ^ 20)) by (apply ln_increasing; lra).
  rewrite ln_Rinv, ln_pow in Hln by lra.
  replace (INR 20) with 20 in Hln by (cbn [INR]; lra).
  assert (Hq : ln G / ln 10 * ln 10 = ln G) by (field; lra).
  nra.
Qed.

(** C7: in exact arithmetic, the notch [__init__] designs, driven from
    rest by a pure tone of amplitude [A] sampled at 256 Hz.  At 60 Hz the
    output dies out: it falls below every positive bound, so from some
    sample on it stays within [A/10], which is 20 dB down.  At 10 Hz the
    output approaches a 10 Hz tone of amplitude [A * G] with a gain [G]
    between 0.95 and 1, which is less than 1 dB down
    ([20 * log10 G > -1]). *)
Theorem notch_attenuates_60_passes_10 (A phase : R) :
  0 < A ->
  create_notch_filter (A:=R) 60 256 30 = Ok Ideal.notch_60 /\
  (forall eps : R, 0 < eps ->
     exists N0 : nat, forall N n : nat,
         (N0 <= n < N)%nat ->
         Rabs (nth n (apply_filter (sinusoid A 60 256 phase N)
                                   Ideal.notch_60) 0) <= eps) /\
  (exists N0 : nat, forall N n : nat,
       (N0 <= n < N)%nat ->
       Rabs (nth n (apply_filter (sinusoid A 60 256 phase N)
                                 Ideal.notch_60) 0) <= A / 10) /\
  (exists G psi : R,
      0.95 <= G /\ G <= 1 /\ -1 < decibels G /\
      forall eps : R, 0 < eps ->
        exists N0 : nat, forall N n : nat,
            (N0 <= n < N)%nat ->
            Rabs (nth n (apply_filter (sinusoid A 10 256 phase N)
                                      Ideal.notch_60) 0
                  - A * G * sin (2 * PI * 10 / 256 * INR n + phase + psi))
            <= eps).
Proof.
  intros HA.
  pose proof gain_bounds as [Hg0 Hg1]. pose proof c0_bounds as [Hc0 Hc1].
  assert (H60 : forall eps : R, 0 < eps ->
            exists N0 : nat, forall N n : nat,
                (N0 <= n < N)%nat ->
                Rabs (nth n (apply_filter (sinusoid A 60 256 phase N)
                                          Ideal.notch_60) 0) <= eps).
  { intros eps Heps.
    destruct (notch_settles A (2 * PI * 60 / 256) phase 0 0) with (eps := eps)
      as [N0 HN0]; [rewrite cos_60_hertz; ring|ring|exact Heps|].
    exists N0. intros N n Hn. specialize (HN0 N n Hn).
    unfold sinusoid.
    match type of HN0 with
    | Rabs (?y - ?z) <= _ => replace (y - z) with y in HN0 by ring
    end.
    exact HN0. }
  split; [apply create_notch_filter_60|].
  split; [exact H60|].
  split; [apply H60; lra|].
  (* the 10 Hz tone *)
  set (w := 2 * PI * 10 / 256).
  set (X := 2 * Ideal.gain * (cos w - Ideal.c0)).
  set (Y := 2 * (1 - Ideal.gain) * sin w).
  pose proof cos_10_hertz_lower as Hcw. fold w in Hcw.
  pose proof (SIN_bound w) as [Hs0 Hs1].
  assert (HX : 0.65 < X) by (unfold X; nra).
  assert (HY : Y * Y <= 0.0144).
  { assert (Hs2 : sin w * sin w <= 1) by nra.
    assert (Hg2 : (1 - Ideal.gain) * (1 - Ideal.gain) <= 0.0036) by nra.
    replace (Y * Y)
      with (4 * ((1 - Ideal.gain) * (1 - Ideal.gain)) * (sin w * sin w))
      by (unfold Y; ring).
    nra. }
  set (u := - Y / X).
  assert (Hu : X * u = - Y) by (unfold u; field; lra).
  assert (Hu2 : u * u <= 0.035).
  { assert (Huu : u * u * (X * X) = Y * Y) by (unfold u; field; lra).
    assert (HXX : 0.42 < X * X) by nra.
    nra. }
  assert (Hu0 : 0 <= u * u) by apply Rle_0_sqr.
  set (r := sqrt (1 + u²)).
  assert (Hr2 : r * r = 1 + u * u).
  { unfold r. rewrite sqrt_sqrt; unfold Rsqr; lra. }
  assert (Hr1 : 1 <= r).
  { unfold r. rewrite <- sqrt_1 at 1. apply sqrt_le_1_alt.
    unfold Rsqr. lra. }
  assert (Hr105 : r <= 1.05) by nra.
  exists (1 / r), (atan u).
  assert (HG : 0.95 <= 1 / r).
  { assert (Hq : 1 / r * r = 1) by (field; lra). nra. }
  split; [exact HG|].
  split.
  { assert (Hq : 1 / r * r = 1) by (field; lra). nra. }
  split; [now apply decibels_above|].
  intros eps Heps.
  destruct (notch_settles A w phase (1 / (r * r)) (u / (r * r)))
    with (eps := eps) as [N0 HN0].
  - fold X. fold Y. replace Y with (- (X * u)) by lra.
    rewrite Hr2. field. lra.
  - fold X. fold Y. replace Y with (- (X * u)) by lra.
    rewrite Hr2. field. lra.
  - exact Heps.
  - exists N0. intros N n Hn. specialize (HN0 N n Hn).
    unfold sinusoid. fold w.
    replace (A * (1 / r) * sin (w * INR n + phase + atan u))
      with (A * (1 / (r * r) * sin (w * INR n + phase)
                 + u / (r * r) * cos (w * INR n + phase))).
    + exact HN0.
    + rewrite (sin_plus (w * INR n + phase) (atan u)), sin_atan, cos_atan.
      fold r. field. lra.
Qed.

(** Unit amplitude, zero phase. *)
Lemma notch_attenuates_60_passes_10_witness :
  0 < 1 /\
  (exists N0 : nat, forall N n : nat,
       (N0 <= n < N)%nat ->
       Rabs (nth n (apply_filter (sinusoid 1 60 256 0 N)
                                 Ideal.notch_60) 0) <= 1 / 10) /\
  (exists G psi : R,
      0.95 <= G /\ G <= 1 /\ -1 < decibels G /\
      forall eps : R, 0 < eps ->
        exists N0 : nat, forall N n : nat,
            (N0 <= n < N)%nat ->
            Rabs (nth n (apply_filter (sinusoid 1 10 256 0 N)
                                      Ideal.notch_60) 0
                  - 1 * G * sin (2 * PI * 10 / 256 * INR n + 0 + psi))
            <= eps).
Proof.
  split; [lra|].
  destruct (notch_attenuates_60_passes_10 1 0) as (_ & _ & H60 & H10); [lra|].
  split; [exact H60|exact H10].
Defined.
End NotchTones.

(* ================================================================== *)
(** * The same runs in binary64 *)
(* ================================================================== *)

Section Binary64Runs.
Local Open Scope float_scope.

(** The block-boundary gap of the notch on [1, 0], computed with the
    binary64 coefficients. *)
Example notch_blocks_differ_binary64 :
  concat (filter_blocks Sample.notch_60 [[1]; [0]])
  = [0x1.f3bb757e48b83p-1; 0] /\
  PrimFloat.eqb (nth 0 (apply_filter [1; 0] Sample.notch_60) 0)
                0x1.f3bb757e48b83p-1 = true /\
  PrimFloat.ltb (nth 1 (apply_filter [1; 0] Sample.notch_60) 0)
                (-0.00390625) = true.
Proof. vm_compute. repeat split. Qed.

(** Carrying the delay line reproduces the single pass on a split of an
    eight-sample ramp into blocks of 3, 1 and 4. *)
Example carried_blocks_binary64 :
  let b := fst Sample.notch_60 in
  let a := snd Sample.notch_60 in
  concat (filter_blocks_carrying b a (signal.zero_state b a)
            [[0; 1; 2]; [3]; [4; 5; 6; 7]])
  = apply_filter [0; 1; 2; 3; 4; 5; 6; 7] Sample.notch_60.
Proof. vm_compute. reflexivity. Qed.

(** In binary64 too a centre of 0 Hz or of [fs/2] passes validation,
    whatever [cos] and [tan] return. *)
Example notch_boundaries_accepted_binary64 (c s t : float -> float) :
  (exists ba, @create_notch_filter float float_numeric (float_trig c s t)
                0 256 30 = Ok ba) /\
  (exists ba, @create_notch_filter float float_numeric (float_trig c s t)
                128 256 30 = Ok ba) /\
  @create_notch_filter float float_numeric (float_trig c s t)
    129 256 30 = Raise ValueError.
Proof.
  repeat split; try eexists; vm_compute; reflexivity.
Qed.
End Binary64Runs.

(* ================================================================== *)
(** * The event loop *)
(* ================================================================== *)

(** [run] starts the input stream and the Qt event loop.  From then on
    the stream calls [audio_callback] with each captured block and the
    timer calls [update]; no other code of the program touches the
    visualizer.  A run is the sequence of these calls, taken one after the
    other: each call is complete before the next begins.  (The stream's
    thread cutting into an [update] between its two reads of the slot is
    not part of this model.)  In this section the slot changes at
    callbacks only; what the stream does to the capture buffer under the
    view the slot holds is the subject of the next section. *)
Section EventLoop.
Context {A : Type} `{Numeric A} `{Trig A}.
Local Open Scope num_scope.

Inductive event : Type :=
| Audio (indata : list (list A))
| Tick.

Definition handle (self : EEGVisualizer A) (e : event) : EEGVisualizer A :=
  match e with
  | Audio indata => audio_callback self indata
  | Tick => update self
  end.

Definition run_events (self : EEGVisualizer A) (es : list event)
  : EEGVisualizer A :=
  fold_left handle es self.

(** The data the three plot items hold. *)
Definition plots (self : EEGVisualizer A) : list A * list A * list A :=
  (timeCurve self, freqBars self, avgBars self).

(** The data one [update] computes from the block [blk] under the
    configuration of [cfg]. *)
Definition display_of (cfg : EEGVisualizer A) (blk : list A)
  : list A * list A * list A :=
  let filtered := apply_filter blk (notch_filter cfg) in
  let fft_data := np.rfft_abs filtered (fft_size cfg) in
  (map (fun v => v * of_Z (timeScale cfg)) filtered,
   firstn 30 fft_data,
   avg_heights (freqs cfg) fft_data).

(** The part of the visualizer no call writes. *)
Definition same_config (s cfg : EEGVisualizer A) : Prop :=
  notch_filter s = notch_filter cfg /\
  alpha_filter s = alpha_filter cfg /\
  beta_filter s = beta_filter cfg /\
  freqs s = freqs cfg /\
  fft_size s = fft_size cfg /\
  fs s = fs cfg /\
  timeScale s = timeScale cfg.

(** What [__init__] returns is [visualizer_with] the three designs. *)
Lemma init_constructed (self : EEGVisualizer A) :
  init = Ok self ->
  exists (notch : coeffs A) (alpha beta : butter_design A),
    self = visualizer_with notch alpha beta.
Proof.
  unfold init.
  destruct (create_notch_filter _ _ _) as [notch|e]; cbn [bind];
    [|discriminate].
  destruct (create_bandpass (of_Z 12) _ _) as [alpha|e]; cbn [bind];
    [|discriminate].
  destruct (create_bandpass (of_Z 24) _ _) as [beta|e]; cbn [bind];
    [|discriminate].
  intros [= <-]. now exists notch, alpha, beta.
Qed.

(** X2: the two bar graphs are created with 30 and 6 bars.  Started
    from the visualizer [__init__] built, every run keeps them supplied
    with exactly 30 and 6 heights, and keeps the mask of the band loop as
    long as the spectrum it indexes. *)
Theorem run_events_keeps_bar_counts (self : EEGVisualizer A)
  (es : list event) :
  init = Ok self ->
  let final := run_events self es in
  length (freqBars final) = 30%nat /\
  length (avgBars final) = 6%nat /\
  table_fits final /\
  (forall band : Z * Z,
      length (band_mask (freqs final) band) = length (fft_data_of final)).
Proof.
  intros Hinit.
  destruct (init_constructed self Hinit) as (notch & alpha & beta & ->).
  cbv zeta.
  set (inv := fun s : EEGVisualizer A =>
                length (freqBars s) = 30%nat /\
                length (avgBars s) = 6%nat /\
                table_fits s /\ fft_size s = 256%nat).
  assert (Hstep : forall s e, inv s -> inv (handle s e)).
  { intros s e (Hfb & Hab & Hfit & Hn). destruct e as [indata|].
    - repeat split; assumption.
    - cbn [handle]. unfold inv.
      destruct (timeSignal s) as [|x blk] eqn:Eblk.
      + unfold update, table_fits. rewrite Eblk. cbn [length Nat.eqb].
        repeat split; assumption.
      + rewrite update_nonempty by (rewrite Eblk; discriminate).
        unfold table_fits. cbn [freqBars avgBars freqs fft_size set_plots].
        repeat split; try assumption.
        rewrite length_firstn. unfold fft_data_of, spectrum.
        rewrite rfft_abs_length, Hn. reflexivity. }
  assert (Hrun : forall es' s, inv s -> inv (run_events s es')).
  { induction es' as [|e es' IH]; intros s Hs; [exact Hs|].
    cbn [run_events fold_left]. apply IH, Hstep, Hs. }
  destruct (Hrun es (visualizer_with notch alpha beta))
    as (Hfb & Hab & Hfit & Hn).
  { unfold inv.
    split; [apply zeros_length|].
    split; [apply zeros_length|].
    split; [apply table_fits_init|reflexivity]. }
  repeat split; try assumption.
  intros band. now apply mask_fits_spectrum.
Qed.
End EventLoop.

(** A tick, a one-sample block and a second tick. *)
Lemma run_events_keeps_bar_counts_witness :
  init (A:=R) = Ok Ideal.visualizer /\
  length (freqBars (run_events Ideal.visualizer
                               [Tick; Audio [[1%R]]; Tick])) = 30%nat.
Proof.
  split; [exact init_ideal|].
  exact (proj1 (run_events_keeps_bar_counts
                  Ideal.visualizer [Tick; Audio [[1%R]]; Tick] init_ideal)).
Defined.

(* ================================================================== *)
(** * The slot as a view of the capture buffer *)
(* ================================================================== *)

(** [audio_callback] stores [indata[:, 0]]: a view of the array the
    stream handed to the callback, not a copy.  What the slot reads
    afterwards is what that memory holds then, and the stream, which owns
    it, may rewrite it once the callback has returned.  A run is therefore
    a sequence of three kinds of events: the stream calls the callback,
    the stream rewrites the samples under the view the slot holds, the
    timer calls [update].  Before the first callback the slot is the
    program's own array of zeros, which the stream cannot reach.  As
    before, each call is complete before the next event. *)
Section CaptureBuffer.
Context {A : Type} `{Numeric A} `{Trig A}.
Local Open Scope num_scope.

Inductive capture_event : Type :=
| Callback (indata : list (list A))
| Rewritten (samples : list A)
| Timer.

(** The visualizer, [timeSignal] being what the slot reads, and whether
    the slot is a view of the capture buffer. *)
Definition capture_state : Type := (EEGVisualizer A * bool)%type.

(** A view keeps its length: a rewrite puts as many samples under it as
    it has. *)
Definition capture_step (st : capture_state) (e : capture_event)
  : capture_state :=
  match e with
  | Callback indata => (audio_callback (fst st) indata, true)
  | Rewritten samples =>
      if snd st && Nat.eqb (length samples) (length (timeSignal (fst st)))
      then (set_timeSignal (fst st) samples, true)
      else st
  | Timer => (update (fst st), snd st)
  end.

Definition capture_run (st : capture_state) (es : list capture_event)
  : capture_state :=
  fold_left capture_step es st.

(** Book-keeping of a run: the samples the slot reads, whether it is a
    view, and the samples the plots were last drawn from, if any. *)
Definition capture_track (l : list A * bool * option (list A))
  (e : capture_event) : list A * bool * option (list A) :=
  let '(slot, viewing, drawn) := l in
  match e with
  | Callback indata => (column0 indata, true, drawn)
  | Rewritten samples =>
      if viewing && Nat.eqb (length samples) (length slot)
      then (samples, true, drawn)
      else l
  | Timer =>
      match slot with
      | [] => l
      | _ :: _ => (slot, viewing, Some slot)
      end
  end.

Definition capture_agrees (cfg : EEGVisualizer A) (st : capture_state)
  (l : list A * bool * option (list A)) : Prop :=
  let '(slot, viewing, drawn) := l in
  timeSignal (fst st) = slot /\
  snd st = viewing /\
  same_config (fst st) cfg /\
  plots (fst st) = match drawn with
                   | None => plots cfg
                   | Some samples => display_of cfg samples
                   end.

Lemma capture_agrees_step (cfg : EEGVisualizer A) (st : capture_state)
  (l : list A * bool * option (list A)) (e : capture_event) :
  capture_agrees cfg st l ->
  capture_agrees cfg (capture_step st e) (capture_track l e).
Proof.
  destruct st as [s viewing], l as [[slot v] drawn].
  cbn [capture_agrees fst snd]. intros (Hts & Hv & Hcfg & Hplots).
  subst v. destruct e as [indata|samples|];
    cbn [capture_step capture_track fst snd].
  - repeat split; try apply Hcfg. exact Hplots.
  - rewrite Hts.
    destruct (viewing && Nat.eqb (length samples) (length slot));
      cbn [capture_agrees fst snd]; repeat split; try apply Hcfg; auto.
  - subst slot. destruct (timeSignal s) as [|x blk] eqn:Eblk.
    + unfold update. rewrite Eblk. cbn [length Nat.eqb capture_agrees fst snd].
      repeat split; try apply Hcfg; auto.
    + rewrite update_nonempty by (rewrite Eblk; discriminate).
      destruct Hcfg as (Hnf & Haf & Hbf & Hfr & Hn & Hfs & Hsc).
      cbn [capture_agrees fst snd]. repeat split; auto.
      unfold plots, display_of, fft_data_of, spectrum, filtered_of.
      cbn [timeCurve freqBars avgBars set_plots].
      now rewrite Eblk, Hnf, Hfr, Hn, Hsc.
Qed.

Lemma capture_agrees_run (cfg : EEGVisualizer A) (es : list capture_event) :
  forall (st : capture_state) (l : list A * bool * option (list A)),
    capture_agrees cfg st l ->
    capture_agrees cfg (capture_run st es) (fold_left capture_track es l).
Proof.
  induction es as [|e es IH]; intros st l Hag; [exact Hag|].
  cbn [capture_run fold_left]. apply IH. now apply capture_agrees_step.
Qed.

Lemma capture_run_app (st : capture_state) (es es' : list capture_event) :
  capture_run st (es ++ es') = capture_run (capture_run st es) es'.
Proof. apply fold_left_app. Qed.

(** X1: from the visualizer [__init__] built, after any sequence of
    callbacks, rewrites of the capture buffer and timer ticks, the
    filters, the frequency table, the transform size and the scales are
    those the run started with; the slot reads the samples last put under
    it, by a callback or by a rewrite (there is no queue and no copy);
    and the plots hold what [update] computes from the samples the slot
    read at the last tick that found it non-empty, or what they held at
    the start when there was no such tick.  In particular a callback with
    a non-empty block followed at once by a tick leaves the plots drawn
    from that block, whatever happened before; when the stream rewrites
    the buffer between the two, the tick draws the rewritten samples and
    the block of the callback is never drawn. *)
Theorem capture_run_shows_slot (self : EEGVisualizer A)
  (es : list capture_event) :
  init = Ok self ->
  capture_agrees self (capture_run (self, false) es)
                 (fold_left capture_track es (timeSignal self, false, None))
  /\
  (forall indata : list (list A),
      column0 indata <> [] ->
      plots (fst (capture_run (self, false) (es ++ [Callback indata; Timer])))
      = display_of self (column0 indata)) /\
  (forall (indata : list (list A)) (samples : list A),
      samples <> [] ->
      length samples = length (column0 indata) ->
      plots (fst (capture_run (self, false)
                    (es ++ [Callback indata; Rewritten samples; Timer])))
      = display_of self samples) /\
  (forall indata : list (list A),
      column0 indata = [] ->
      plots (fst (capture_run (self, false) (es ++ [Callback indata; Timer])))
      = plots (fst (capture_run (self, false) es))).
Proof.
  intros _.
  assert (Hrun : capture_agrees
                   self (capture_run (self, false) es)
                   (fold_left capture_track es
                              (timeSignal self, false, None))).
  { apply capture_agrees_run. cbn [capture_agrees fst snd]. repeat split. }
  split; [exact Hrun|]. split; [|split].
  - intros indata Hne. rewrite capture_run_app.
    pose proof (capture_agrees_run self [Callback indata; Timer] _ _ Hrun)
      as Hend.
    destruct (fold_left capture_track es (timeSignal self, false, None))
      as [[slot v] drawn].
    cbn [fold_left capture_track] in Hend.
    destruct (column0 indata) as [|x blk]; [congruence|].
    cbn [capture_agrees] in Hend. apply Hend.
  - intros indata samples Hne Hlen. rewrite capture_run_app.
    pose proof (capture_agrees_run
                  self [Callback indata; Rewritten samples; Timer] _ _ Hrun)
      as Hend.
    destruct (fold_left capture_track es (timeSignal self, false, None))
      as [[slot v] drawn].
    cbn [fold_left capture_track andb] in Hend.
    rewrite Hlen, Nat.eqb_refl in Hend.
    destruct samples as [|x blk]; [congruence|].
    cbn [capture_agrees] in Hend. apply Hend.
  - intros indata Hnil. rewrite capture_run_app.
    cbn [capture_run fold_left capture_step fst snd].
    unfold update. cbn [audio_callback timeSignal set_timeSignal].
    rewrite Hnil. reflexivity.
Qed.
End CaptureBuffer.

(** On the exact-arithmetic visualizer: a block [1, 2], rewritten to
    [3, 4] before the tick. *)
Lemma capture_run_shows_slot_witness :
  init (A:=R) = Ok Ideal.visualizer /\
  plots (fst (capture_run (Ideal.visualizer, false)
                ([] ++ [Callback [[1%R]; [2%R]]; Rewritten [3%R; 4%R];
                        Timer])))
  = display_of Ideal.visualizer [3%R; 4%R].
Proof.
  split; [exact init_ideal|].
  destruct (capture_run_shows_slot Ideal.visualizer [] init_ideal)
    as (_ & _ & Hshow & _).
  apply (Hshow [[1%R]; [2%R]] [3%R; 4%R]); [discriminate|reflexivity].
Defined.

(* ================================================================== *)
(** * One NaN sample and the rest of the trace (binary64) *)
(* ================================================================== *)

Section NaNPoisoning.
Local Open Scope float_scope.

Lemma add_nan_l (x : float) : nan + x = nan.
Proof.
  apply Prim2SF_inj. rewrite FloatAxioms.add_spec.
  change (Prim2SF nan) with S754_nan. reflexivity.
Qed.

Lemma sub_nan_r (x : float) : x - nan = nan.
Proof.
  apply Prim2SF_inj. rewrite FloatAxioms.sub_spec.
  change (Prim2SF nan) with S754_nan. now destruct (Prim2SF x).
Qed.

(** Once the output is a NaN, every delay is. *)
Lemma next_delays_nan (bt at_ zt : list float) (x : float) :
  Forall (eq nan) (signal.next_delays bt at_ zt x nan).
Proof.
  revert at_ zt. induction bt as [|bi bt IH]; intros at_ zt; [constructor|].
  destruct at_ as [|ai at_]; [constructor|].
  destruct zt as [|zn zt];
    cbn [signal.next_delays nadd nsub nmul float_numeric];
    rewrite mul_nan_l, sub_nan_r; constructor; auto.
Qed.

Lemma next_delays_nonempty (bt at_ zt : list float) (x y : float) :
  bt <> [] -> at_ <> [] -> signal.next_delays bt at_ zt x y <> [].
Proof.
  destruct bt as [|bi bt]; [congruence|].
  destruct at_ as [|ai at_]; [congruence|].
  intros _ _. cbn [signal.next_delays]. now destruct zt.
Qed.

(** A filter of at least two coefficients, at a non-empty delay line. *)
Definition has_memory (b a z : list float) : Prop :=
  (2 <= length b)%nat /\ (2 <= length a)%nat /\ z <> [].

Lemma filter_step_memory (b a z : list float) (x : float) :
  has_memory b a z -> has_memory b a (snd (signal.filter_step b a z x)).
Proof.
  intros (Hb & Ha & Hz).
  destruct b as [|b0 [|b1 bt]]; cbn [length] in Hb; try lia.
  destruct a as [|a0 [|a1 at_]]; cbn [length] in Ha; try lia.
  destruct z as [|z0 zt]; [congruence|].
  repeat split; cbn [length]; try lia.
  cbn [signal.filter_step snd]. apply next_delays_nonempty; discriminate.
Qed.

Lemma filter_step_nan_state (b a z : list float) :
  has_memory b a z ->
  fst (signal.filter_step b a z nan) = nan /\
  Forall (eq nan) (snd (signal.filter_step b a z nan)).
Proof.
  intros (Hb & Ha & Hz).
  destruct b as [|b0 bt]; cbn [length] in Hb; try lia.
  destruct a as [|a0 at_]; cbn [length] in Ha; try lia.
  destruct z as [|z0 zt]; [congruence|].
  cbn [signal.filter_step fst snd nadd nmul float_numeric].
  rewrite mul_nan_r, add_nan_r. split; [reflexivity|apply next_delays_nan].
Qed.

Lemma filter_step_from_nan (b a z : list float) (x : float) :
  has_memory b a z -> Forall (eq nan) z ->
  fst (signal.filter_step b a z x) = nan /\
  Forall (eq nan) (snd (signal.filter_step b a z x)).
Proof.
  intros (Hb & Ha & Hz) Hnan.
  destruct b as [|b0 bt]; cbn [length] in Hb; try lia.
  destruct a as [|a0 at_]; cbn [length] in Ha; try lia.
  destruct z as [|z0 zt]; [congruence|].
  inversion Hnan as [|? ? Hz0 _]; subst.
  cbn [signal.filter_step fst snd nadd nmul float_numeric].
  rewrite add_nan_l. split; [reflexivity|apply next_delays_nan].
Qed.

Lemma filter_run_from_nan (b a : list float) (x : list float) :
  forall (z : list float) (j : nat),
    has_memory b a z -> Forall (eq nan) z ->
    (j < length x)%nat ->
    nth_error (fst (signal.filter_run b a z x)) j = Some nan.
Proof.
  induction x as [|xn x IH]; intros z j Hmem Hnan Hj; cbn [length] in Hj;
    [lia|].
  pose proof (filter_step_from_nan b a z xn Hmem Hnan) as [Hy Hz'].
  pose proof (filter_step_memory b a z xn Hmem) as Hmem'.
  cbn [signal.filter_run].
  destruct (signal.filter_step b a z xn) as [y z']. cbn [fst snd] in *.
  specialize (IH z').
  destruct (signal.filter_run b a z' x) as [ys zf].
  destruct j as [|j]; cbn [nth_error fst] in *.
  - now rewrite Hy.
  - apply IH; auto. lia.
Qed.

Lemma filter_run_nan_onwards (b a : list float) (x : list float) :
  forall (z : list float) (i j : nat),
    has_memory b a z ->
    nth_error x i = Some nan ->
    (i <= j < length x)%nat ->
    nth_error (fst (signal.filter_run b a z x)) j = Some nan.
Proof.
  induction x as [|xn x IH]; intros z i j Hmem Hi Hj; cbn [length] in Hj;
    [lia|].
  pose proof (filter_step_memory b a z xn Hmem) as Hmem'.
  destruct i as [|i]; cbn [nth_error] in Hi.
  - injection Hi as ->.
    pose proof (filter_step_nan_state b a z Hmem) as [Hy Hz'].
    pose proof (filter_run_from_nan b a x
                  (snd (signal.filter_step b a z nan))) as Hrest.
    cbn [signal.filter_run].
    destruct (signal.filter_step b a z nan) as [y z']. cbn [fst snd] in *.
    specialize (Hrest).
    destruct (signal.filter_run b a z' x) as [ys zf].
    destruct j as [|j]; cbn [nth_error fst] in *.
    + now rewrite Hy.
    + apply Hrest; auto. lia.
  - cbn [signal.filter_run].
    destruct (signal.filter_step b a z xn) as [y z']. cbn [fst snd] in *.
    specialize (IH z' i).
    destruct (signal.filter_run b a z' x) as [ys zf].
    destruct j as [|j]; [lia|]. cbn [nth_error fst] in *.
    apply IH; auto. lia.
Qed.

Lemma lfilter_has_memory (b a : list float) :
  (2 <= Nat.max (length a) (length b))%nat ->
  has_memory (signal.norm_b b a) (signal.norm_a b a) (signal.zero_state b a).
Proof.
  intros Hn. unfold has_memory, signal.norm_b, signal.norm_a,
    signal.normalize, signal.pad_coeffs, signal.zero_state.
  rewrite !length_map, !length_app, !zeros_length.
  repeat split; try lia.
  intros Hnil. apply (f_equal (@length float)) in Hnil.
  rewrite zeros_length in Hnil. cbn [length] in Hnil. lia.
Qed.

(** X3: one NaN sample spoils the rest of the trace.  When sample [i]
    of the block is a NaN and the notch is a recursive filter [lfilter]
    accepts (a non-empty numerator, at least two denominator coefficients,
    the leading one not zero), the filtered block, and with it the trace
    [update] draws, is NaN at every position from [i] to its end, whatever
    the other samples are: the delay line carries the NaN on.  The trace
    has the length of the block. *)
Theorem nan_sample_spoils_trace (T : Trig float)
  (self : EEGVisualizer float) (i : nat) :
  nth_error (timeSignal self) i = Some nan ->
  fst (notch_filter self) <> [] ->
  (2 <= length (snd (notch_filter self)))%nat ->
  (hd 0 (snd (notch_filter self)) =? 0) = false ->
  (0 < fft_size self)%nat ->
  length (timeCurve (update self)) = length (timeSignal self) /\
  (forall j : nat,
      (i <= j < length (timeSignal self))%nat ->
      nth_error (filtered_of self) j = Some nan /\
      nth_error (timeCurve (update self)) j = Some nan).
Proof.
  intros Hi _ Hlen _ _.
  assert (Hne : timeSignal self <> []).
  { intros Hnil. rewrite Hnil in Hi. now destruct i. }
  assert (Hrun : forall j : nat,
             (i <= j < length (timeSignal self))%nat ->
             nth_error (filtered_of self) j = Some nan).
  { intros j Hj. unfold filtered_of, apply_filter.
    destruct (notch_filter self) as [b a]. cbn [fst snd] in Hlen.
    assert (Hmax : (2 <= Nat.max (length a) (length b))%nat) by lia.
    unfold signal.lfilter, signal.lfilter_zi.
    apply filter_run_nan_onwards with i; auto using lfilter_has_memory. }
  rewrite (update_nonempty self Hne).
  cbn [timeCurve set_plots]. split.
  - rewrite length_map. apply apply_filter_length.
  - intros j Hj. split; [exact (Hrun j Hj)|].
    rewrite nth_error_map, (Hrun j Hj).
    cbn [option_map nmul float_numeric]. now rewrite mul_nan_l.
Qed.

(** The block [0.5, NaN, 0.25] on the sample visualizer: the last sample
    of the trace is a NaN too. *)
Lemma nan_sample_spoils_trace_witness :
  nth_error (timeSignal (audio_callback Sample.visualizer nan_block)) 1
  = Some nan /\
  forall c s t : float -> float,
    nth_error (timeCurve (@update float float_numeric (float_trig c s t)
                            (audio_callback Sample.visualizer nan_block))) 2%nat
    = Some nan.
Proof.
  split; [reflexivity|]. intros c s t.
  destruct (nan_sample_spoils_trace
              (float_trig c s t)
              (audio_callback Sample.visualizer nan_block) 1)
    as [_ Hrest].
  - reflexivity.
  - discriminate.
  - cbn. lia.
  - reflexivity.
  - cbn. lia.
  - apply (Hrest 2%nat). cbn. lia.
Defined.
End NaNPoisoning.

(* ================================================================== *)
(** * What the band display looks at (binary64) *)
(* ================================================================== *)

Section BandCoverage.
Local Open Scope float_scope.

Lemma take_indices_firstn (T : Type) (m : list T) (k : nat) (idx : list nat) :
  Forall (fun i => (i < k)%nat) idx ->
  take_indices (firstn k m) idx = take_indices m idx.
Proof.
  induction 1 as [|i idx Hi _ IH]; [reflexivity|].
  cbn [take_indices flat_map]. fold (take_indices (firstn k m) idx).
  fold (take_indices m idx). rewrite IH. f_equal.
  now rewrite nth_error_firstn, (proj2 (Nat.ltb_lt i k) Hi).
Qed.

Lemma band_bins_below_46 :
  Forall (Forall (fun i => (i < 46)%nat)) band_bins.
Proof.
  unfold band_bins. repeat constructor.
Qed.

(** X4: on the program's frequency table the six bands together look
    at bins 0 to 45 and at no other: every one of these bins is averaged
    into some band, and two spectra of 129 bins that agree on bins 0..45
    get the same six averages.  What the notch does around 60 Hz never
    reaches the band display. *)
Theorem band_averages_use_bins_0_to_45 (m m' : list float) :
  length m = 129%nat -> length m' = 129%nat ->
  firstn 46 m = firstn 46 m' ->
  avg_heights (freqs Sample.visualizer) m
  = avg_heights (freqs Sample.visualizer) m' /\
  (forall k : nat,
      In k (concat (map (fun band =>
                           true_indices (band_mask (freqs Sample.visualizer)
                                                   band)) bands))
      <-> (k < 46)%nat).
Proof.
  intros _ _ Hsame. split.
  - unfold avg_heights. apply map_ext_in. intros band Hband.
    rewrite !bool_index_indices. f_equal.
    assert (Hlt : Forall (fun i => (i < 46)%nat)
                    (true_indices (band_mask (freqs Sample.visualizer) band))).
    { pose proof band_bins_below_46 as Hall.
      rewrite <- band_bins_computed in Hall.
      rewrite Forall_forall in Hall. apply Hall.
      exact (in_map (fun b => true_indices
                                (band_mask (freqs Sample.visualizer) b))
                    bands band Hband). }
    rewrite <- (take_indices_firstn _ m 46 _ Hlt).
    rewrite <- (take_indices_firstn _ m' 46 _ Hlt).
    now rewrite Hsame.
  - intros k. rewrite band_bins_computed. unfold band_bins.
    cbn [concat app seq]. split.
    + intros Hin. cbn [In] in Hin.
      repeat (destruct Hin as [<-|Hin]; [lia|]). contradiction.
    + intros Hk. do 46 (destruct k as [|k]; [cbn; tauto|]). lia.
Qed.

(** Two spectra that differ only from bin 46 on. *)
Definition flat_spectrum : list float := repeat 1 129.
Definition late_spectrum : list float := repeat 1 46 ++ repeat 7 83.

Lemma band_averages_use_bins_0_to_45_witness :
  length flat_spectrum = 129%nat /\
  length late_spectrum = 129%nat /\
  firstn 46 flat_spectrum = firstn 46 late_spectrum /\
  avg_heights (freqs Sample.visualizer) flat_spectrum
  = avg_heights (freqs Sample.visualizer) late_spectrum.
Proof.
  assert (H1 : length flat_spectrum = 129%nat) by reflexivity.
  assert (H2 : length late_spectrum = 129%nat) by reflexivity.
  assert (H3 : firstn 46 flat_spectrum = firstn 46 late_spectrum)
    by reflexivity.
  split; [exact H1|]. split; [exact H2|]. split; [exact H3|].
  exact (proj1 (band_averages_use_bins_0_to_45 flat_spectrum late_spectrum
                  H1 H2 H3)).
Defined.
End BandCoverage.

(* ================================================================== *)
(** * Construction (binary64) *)
(* ================================================================== *)

Section Construction.
Local Open Scope float_scope.

(** X5: in binary64, [__init__] cannot fail in its three filter
    designs, whatever values the platform's [cos], [sin] and [tan]
    return: the edges 60/128, 11/128, 13/128, 23/128 and 25/128 pass the
    range tests.  The visualizer it builds holds a block of 240 zeros, a
    table of the 129 frequencies 0, 1, ..., 128 Hz, a notch of three
    numerator and three denominator coefficients whose leading
    denominator coefficient is exactly 1, no trace, and bars at zero. *)
Theorem init_succeeds_binary64 (c s t : float -> float) :
  exists v : EEGVisualizer float,
    @init float float_numeric (float_trig c s t) = Ok v /\
    timeSignal v = repeat 0 240 /\
    freqs v = map (fun k => of_Z (Z.of_nat k)) (seq 0 129) /\
    fft_size v = 256%nat /\
    table_fits v /\
    length (fst (notch_filter v)) = 3%nat /\
    length (snd (notch_filter v)) = 3%nat /\
    hd 0 (snd (notch_filter v)) = 1 /\
    alpha_filter v = Sample.alpha_12 /\
    beta_filter v = Sample.beta_24 /\
    plots v = ([], repeat 0 30, repeat 0 6).
Proof.
  eexists. split.
  - unfold init, create_notch_filter, signal.iirnotch.
    vm_compute. reflexivity.
  - repeat split; vm_compute; reflexivity.
Qed.
End Construction.

(* ================================================================== *)
(** * Linearity of the filter (exact arithmetic) *)
(* ================================================================== *)

Section LinearFilter.
Local Open Scope R_scope.

(** The sample-wise combination [alpha * x + beta * y] of two blocks. *)
Definition mix (alpha : R) (x : list R) (beta : R) (y : list R) : list R :=
  map (fun p => alpha * fst p + beta * snd p) (combine x y).

Lemma mix_zeros (alpha beta : R) (n : nat) :
  mix alpha (np.zeros n) beta (np.zeros n) = np.zeros n.
Proof.
  unfold mix, np.zeros. induction n as [|n IH]; [reflexivity|].
  cbn [repeat combine map fst snd of_Z R_numeric]. f_equal; [ring|exact IH].
Qed.

Lemma mix_same (alpha : R) (x : list R) :
  mix alpha x 0 x = map (Rmult alpha) x.
Proof.
  unfold mix. induction x as [|v x IH]; [reflexivity|].
  cbn [combine map fst snd]. f_equal; [ring|exact IH].
Qed.

Lemma next_delays_length (bt at_ : list R) :
  forall (zt zt' : list R) (x y x' y' : R),
    length zt = length zt' ->
    length (signal.next_delays bt at_ zt x y)
    = length (signal.next_delays bt at_ zt' x' y').
Proof.
  revert at_. induction bt as [|bi bt IH]; intros at_ zt zt' x y x' y' Hlen;
    [reflexivity|].
  destruct at_ as [|ai at_]; [reflexivity|].
  destruct zt as [|zn zt]; destruct zt' as [|zn' zt']; try discriminate;
    [reflexivity|].
  cbn [signal.next_delays length]. f_equal. apply IH.
  now injection Hlen.
Qed.

Lemma next_delays_mix (alpha beta : R) (bt at_ : list R) :
  forall (zt1 zt2 : list R) (x1 x2 y1 y2 : R),
    length zt1 = length zt2 ->
    signal.next_delays bt at_ (mix alpha zt1 beta zt2)
                       (alpha * x1 + beta * x2) (alpha * y1 + beta * y2)
    = mix alpha (signal.next_delays bt at_ zt1 x1 y1)
          beta (signal.next_delays bt at_ zt2 x2 y2).
Proof.
  revert at_. induction bt as [|bi bt IH]; intros at_ zt1 zt2 x1 x2 y1 y2 Hlen;
    [reflexivity|].
  destruct at_ as [|ai at_]; [reflexivity|].
  destruct zt1 as [|zn1 zt1]; destruct zt2 as [|zn2 zt2]; try discriminate.
  - cbn [signal.next_delays mix combine map fst snd nadd nsub nmul R_numeric].
    f_equal. ring.
  - cbn [signal.next_delays mix combine map fst snd nadd nsub nmul R_numeric].
    f_equal; [ring|]. apply IH. now injection Hlen.
Qed.

Lemma filter_step_mix (alpha beta : R) (b a z1 z2 : list R) (x1 x2 : R) :
  length z1 = length z2 ->
  signal.filter_step b a (mix alpha z1 beta z2) (alpha * x1 + beta * x2)
  = (alpha * fst (signal.filter_step b a z1 x1)
     + beta * fst (signal.filter_step b a z2 x2),
     mix alpha (snd (signal.filter_step b a z1 x1))
         beta (snd (signal.filter_step b a z2 x2))) /\
  length (snd (signal.filter_step b a z1 x1))
  = length (snd (signal.filter_step b a z2 x2)).
Proof.
  intros Hlen.
  destruct b as [|b0 bt].
  { cbn [signal.filter_step fst snd of_Z R_numeric].
    split; [f_equal; ring|exact Hlen]. }
  destruct a as [|a0 at_].
  { cbn [signal.filter_step fst snd nmul R_numeric].
    split; [f_equal; ring|exact Hlen]. }
  destruct z1 as [|z01 zt1]; destruct z2 as [|z02 zt2]; try discriminate.
  { cbn [signal.filter_step fst snd nmul R_numeric mix combine map].
    split; [f_equal; ring|reflexivity]. }
  injection Hlen as Hlen.
  cbn [signal.filter_step fst snd nadd nmul R_numeric mix combine map].
  split.
  - replace (alpha * z01 + beta * z02 + b0 * (alpha * x1 + beta * x2))
      with (alpha * (z01 + b0 * x1) + beta * (z02 + b0 * x2)) by ring.
    f_equal. now apply next_delays_mix.
  - now apply next_delays_length.
Qed.

Lemma filter_run_mix (alpha beta : R) (b a : list R) (x1 : list R) :
  forall (x2 z1 z2 : list R),
    length x1 = length x2 ->
    length z1 = length z2 ->
    fst (signal.filter_run b a (mix alpha z1 beta z2) (mix alpha x1 beta x2))
    = mix alpha (fst (signal.filter_run b a z1 x1))
          beta (fst (signal.filter_run b a z2 x2)).
Proof.
  induction x1 as [|u x1 IH]; intros [|v x2] z1 z2 Hx Hz; try discriminate;
    [reflexivity|].
  injection Hx as Hx.
  cbn [mix combine map fst snd signal.filter_run].
  fold (mix alpha x1 beta x2).
  destruct (filter_step_mix alpha beta b a z1 z2 u v Hz) as [Hstep Hlen].
  rewrite Hstep.
  destruct (signal.filter_step b a z1 u) as [y1 z1'].
  destruct (signal.filter_step b a z2 v) as [y2 z2'].
  cbn [fst snd] in *.
  specialize (IH x2 z1' z2' Hx Hlen).
  destruct (signal.filter_run b a (mix alpha z1' beta z2')
                              (mix alpha x1 beta x2)) as [ys zf].
  destruct (signal.filter_run b a z1' x1) as [ys1 zf1].
  destruct (signal.filter_run b a z2' x2) as [ys2 zf2].
  cbn [fst] in *. cbn [mix combine map fst snd]. now rewrite IH.
Qed.

Lemma lfilter_mix (alpha beta : R) (b a x y : list R) :
  length x = length y ->
  signal.lfilter b a (mix alpha x beta y)
  = mix alpha (signal.lfilter b a x) beta (signal.lfilter b a y).
Proof.
  intros Hlen. unfold signal.lfilter, signal.lfilter_zi, signal.zero_state.
  rewrite <- (mix_zeros alpha beta) at 1.
  now apply filter_run_mix.
Qed.

(** X6: in exact arithmetic [apply_filter] is linear.  For two blocks
    of one length and coefficients [lfilter] accepts (a non-zero leading
    denominator coefficient), filtering the combination
    [alpha * x + beta * y] gives the same combination of the two filtered
    blocks. *)
Theorem apply_filter_linear (c : coeffs R) (alpha beta : R) (x y : list R) :
  hd 0 (snd c) <> 0 ->
  length x = length y ->
  apply_filter (mix alpha x beta y) c
  = mix alpha (apply_filter x c) beta (apply_filter y c).
Proof.
  intros _ Hlen. destruct c as [b a]. now apply lfilter_mix.
Qed.

(** Two blocks of two samples through the designed notch. *)
Lemma apply_filter_linear_witness :
  hd 0 (snd Ideal.notch_60) <> 0 /\
  length [1; 0] = length [0; 1] /\
  apply_filter (mix 3 [1; 0] (-2) [0; 1]) Ideal.notch_60
  = mix 3 (apply_filter [1; 0] Ideal.notch_60)
        (-2) (apply_filter [0; 1] Ideal.notch_60).
Proof.
  assert (Ha0 : hd 0 (snd Ideal.notch_60) <> 0) by (cbn [hd snd Ideal.notch_60]; lra).
  split; [exact Ha0|]. split; [reflexivity|].
  apply (apply_filter_linear Ideal.notch_60 3 (-2) [1; 0] [0; 1] Ha0).
  reflexivity.
Defined.

Lemma lfilter_scale (c : R) (b a x : list R) :
  signal.lfilter b a (map (Rmult c) x) = map (Rmult c) (signal.lfilter b a x).
Proof.
  rewrite <- !mix_same. now apply lfilter_mix.
Qed.
End LinearFilter.

(* ================================================================== *)
(** * The display in exact arithmetic *)
(* ================================================================== *)

Section ExactDisplay.
Local Open Scope R_scope.

(** Every band holds a bin of the table. *)
Definition bands_populated (self : EEGVisualizer R) : Prop :=
  forall band : Z * Z, In band bands -> In true (band_mask (freqs self) band).

Lemma ideal_band_has_bin (low high : Z) (k : nat) :
  (k < 129)%nat ->
  IZR low <= IZR (Z.of_nat k) <= IZR high ->
  In true (band_mask (freqs Ideal.visualizer) (low, high)).
Proof.
  intros Hk [Hlo Hhi].
  unfold band_mask, np.ge_scalar, np.le_scalar, ngeb.
  rewrite mask_and_map. apply in_map_iff.
  exists (IZR (Z.of_nat k) * (1 / (IZR (Z.of_nat 256) * (1 / 256)))).
  assert (Hval : 1 / (IZR (Z.of_nat 256) * (1 / 256)) = 1)
    by (cbn [Z.of_nat Pos.of_succ_nat Pos.succ]; field).
  split.
  - rewrite Hval, Rmult_1_r. cbn [nleb R_numeric of_Z].
    now rewrite !Rleb_true.
  - unfold Ideal.visualizer, visualizer_with, np.rfftfreq, np.arange.
    cbn [freqs]. apply in_map_iff.
    exists (IZR (Z.of_nat k)). split; [reflexivity|].
    apply in_map_iff. exists k. split; [reflexivity|].
    apply in_seq. cbn. lia.
Qed.

Lemma ideal_bands_populated : bands_populated Ideal.visualizer.
Proof.
  intros band Hband. unfold bands in Hband. cbn [In] in Hband.
  destruct Hband as [<-|[<-|[<-|[<-|[<-|[<-|[]]]]]]].
  - apply ideal_band_has_bin with 0%nat; [lia|cbn; lra].
  - apply ideal_band_has_bin with 4%nat; [lia|cbn; lra].
  - apply ideal_band_has_bin with 8%nat; [lia|cbn; lra].
  - apply ideal_band_has_bin with 12%nat; [lia|cbn; lra].
  - apply ideal_band_has_bin with 20%nat; [lia|cbn; lra].
  - apply ideal_band_has_bin with 30%nat; [lia|cbn; lra].
Qed.

Lemma ideal_a0 : hd 0 (snd (notch_filter Ideal.visualizer)) <> 0.
Proof. cbn. lra. Qed.

(** ** Scaling a block *)

Lemma fit_length_scale (c : R) (n : nat) (x : list R) :
  np.fit_length n (map (Rmult c) x) = map (Rmult c) (np.fit_length n x).
Proof.
  unfold np.fit_length, np.zeros.
  rewrite map_app, firstn_map, length_map, map_repeat.
  cbn [of_Z R_numeric]. now rewrite Rmult_0_r.
Qed.

Lemma dft_re_scale (c : R) (n k : nat) (x : list R) :
  forall t0 : nat,
    np.dft_re n k t0 (map (Rmult c) x) = c * np.dft_re n k t0 x.
Proof.
  induction x as [|v x IH]; intros t0;
    cbn [map np.dft_re of_Z nadd nmul R_numeric]; [ring|].
  rewrite IH. ring.
Qed.

Lemma dft_im_scale (c : R) (n k : nat) (x : list R) :
  forall t0 : nat,
    np.dft_im n k t0 (map (Rmult c) x) = c * np.dft_im n k t0 x.
Proof.
  induction x as [|v x IH]; intros t0;
    cbn [map np.dft_im of_Z nsub nmul R_numeric]; [ring|].
  rewrite IH. ring.
Qed.

Lemma magnitude_scale (c re im : R) :
  sqrt (c * re * (c * re) + c * im * (c * im))
  = Rabs c * sqrt (re * re + im * im).
Proof.
  replace (c * re * (c * re) + c * im * (c * im))
    with (c² * (re * re + im * im)) by (unfold Rsqr; ring).
  rewrite sqrt_mult.
  - now rewrite sqrt_Rsqr_abs.
  - apply Rle_0_sqr.
  - pose proof (Rle_0_sqr re). pose proof (Rle_0_sqr im).
    unfold Rsqr in *. lra.
Qed.

Lemma rfft_abs_scale (c : R) (x : list R) (n : nat) :
  np.rfft_abs (map (Rmult c) x) n = map (Rmult (Rabs c)) (np.rfft_abs x n).
Proof.
  unfold np.rfft_abs. rewrite map_map, fit_length_scale.
  apply map_ext. intros k. cbv zeta.
  rewrite dft_re_scale, dft_im_scale.
  cbn [nadd nmul nsqrt R_numeric]. apply magnitude_scale.
Qed.

Lemma bool_index_map (f : R -> R) (l : list R) (mask : list bool) :
  np.bool_index (map f l) mask = map f (np.bool_index l mask).
Proof.
  revert mask. induction l as [|v l IH]; intros [|m mask]; cbn; auto.
  destruct m; cbn; now rewrite IH.
Qed.

Lemma sum_scale (k : R) (l : list R) :
  forall a : R,
    fold_left Rplus (map (Rmult k) l) (k * a) = k * fold_left Rplus l a.
Proof.
  induction l as [|v l IH]; intros a; cbn [map fold_left]; [reflexivity|].
  rewrite <- IH. f_equal. ring.
Qed.

Lemma mean_scale (k : R) (l : list R) :
  np.mean (map (Rmult k) l) = k * np.mean l.
Proof.
  unfold np.mean, np.sum. cbn [nadd ndiv of_Z R_numeric].
  rewrite length_map. rewrite <- (Rmult_0_r k) at 1.
  rewrite sum_scale. unfold Rdiv. ring.
Qed.

Lemma avg_heights_scale (k : R) (table m : list R) :
  avg_heights table (map (Rmult k) m) = map (Rmult k) (avg_heights table m).
Proof.
  unfold avg_heights. rewrite map_map. apply map_ext. intros band.
  now rewrite bool_index_map, mean_scale.
Qed.

(** X7: in exact arithmetic the display follows the amplitude of the
    block.  When every sample of a non-empty block is multiplied by [c],
    the trace [update] draws is multiplied by [c], and the spectrum bars
    and the six band averages are multiplied by [|c|]. *)
Theorem update_scales_with_block (self : EEGVisualizer R) (c : R) :
  timeSignal self <> [] ->
  hd 0 (snd (notch_filter self)) <> 0 ->
  (0 < fft_size self)%nat ->
  table_fits self ->
  bands_populated self ->
  let louder := set_timeSignal self (map (Rmult c) (timeSignal self)) in
  timeCurve (update louder) = map (Rmult c) (timeCurve (update self)) /\
  freqBars (update louder) = map (Rmult (Rabs c)) (freqBars (update self)) /\
  avgBars (update louder) = map (Rmult (Rabs c)) (avgBars (update self)).
Proof.
  intros Hne _ _ _ _ louder.
  assert (Hne' : timeSignal louder <> []).
  { unfold louder. cbn [timeSignal set_timeSignal].
    destruct (timeSignal self); [congruence|discriminate]. }
  rewrite (update_nonempty self Hne), (update_nonempty louder Hne').
  cbn [timeCurve freqBars avgBars set_plots].
  assert (Hf : filtered_of louder = map (Rmult c) (filtered_of self)).
  { unfold filtered_of, louder, apply_filter.
    cbn [timeSignal notch_filter set_timeSignal].
    destruct (notch_filter self) as [b a]. apply lfilter_scale. }
  assert (Hs : fft_data_of louder
               = map (Rmult (Rabs c)) (fft_data_of self)).
  { unfold fft_data_of, spectrum. rewrite Hf.
    unfold louder. cbn [fft_size set_timeSignal]. apply rfft_abs_scale. }
  rewrite Hf, Hs. unfold louder. cbn [timeScale freqs set_timeSignal].
  split; [|split].
  - rewrite !map_map. apply map_ext. intros v.
    cbn [nmul R_numeric]. ring.
  - apply firstn_map.
  - apply avg_heights_scale.
Qed.

(** The two-sample block [1, 2] made three times louder. *)
Lemma update_scales_with_block_witness :
  let self := audio_callback Ideal.visualizer [[1]; [2]] in
  timeSignal self <> [] /\
  hd 0 (snd (notch_filter self)) <> 0 /\
  (0 < fft_size self)%nat /\
  table_fits self /\
  bands_populated self /\
  freqBars (update (set_timeSignal self (map (Rmult 3) (timeSignal self))))
  = map (Rmult (Rabs 3)) (freqBars (update self)).
Proof.
  cbv zeta.
  set (self := audio_callback Ideal.visualizer [[1]; [2]]).
  assert (Hne : timeSignal self <> []) by discriminate.
  assert (Ha0 : hd 0 (snd (notch_filter self)) <> 0) by exact ideal_a0.
  assert (Hn : (0 < fft_size self)%nat) by (cbn; lia).
  assert (Hfit : table_fits self) by apply table_fits_init.
  assert (Hpop : bands_populated self) by exact ideal_bands_populated.
  repeat (split; [assumption|]).
  apply (update_scales_with_block self 3 Hne Ha0 Hn Hfit Hpop).
Defined.
End ExactDisplay.

Section ExactSpectrum.
Local Open Scope R_scope.

(** ** A silent block *)

Lemma scale_by_zero (l : list R) : map (Rmult 0) l = np.zeros (length l).
Proof.
  unfold np.zeros. induction l as [|v l IH]; [reflexivity|].
  cbn [map length repeat of_Z R_numeric]. f_equal; [ring|exact IH].
Qed.

Lemma zeros_scaled (n : nat) : np.zeros (A:=R) n = map (Rmult 0) (np.zeros n).
Proof. now rewrite scale_by_zero, zeros_length. Qed.

Lemma lfilter_zeros (b a : list R) (n : nat) :
  signal.lfilter b a (np.zeros n) = np.zeros n.
Proof.
  rewrite zeros_scaled at 1.
  rewrite lfilter_scale, scale_by_zero, lfilter_length.
  now rewrite zeros_length.
Qed.

Lemma rfft_abs_zeros (m n : nat) :
  np.rfft_abs (np.zeros (A:=R) m) n = np.zeros (n / 2 + 1).
Proof.
  rewrite zeros_scaled, rfft_abs_scale, Rabs_R0, scale_by_zero.
  now rewrite rfft_abs_length.
Qed.

Lemma firstn_zeros (k n : nat) :
  firstn k (np.zeros (A:=R) n) = np.zeros (Nat.min k n).
Proof.
  unfold np.zeros. revert n.
  induction k as [|k IH]; intros [|n]; cbn [firstn repeat Nat.min]; auto.
  now rewrite IH.
Qed.

Lemma avg_heights_zeros (table : list R) (n : nat) :
  avg_heights table (np.zeros n) = np.zeros 6.
Proof.
  rewrite zeros_scaled, avg_heights_scale, scale_by_zero. reflexivity.
Qed.

(** X8: in exact arithmetic a block of silence gives a flat display.
    For a non-empty all-zero block [update] draws an all-zero trace of
    the block's length, all-zero spectrum bars and six zero band
    averages.  This is what the first tick shows before any audio block
    has arrived, the buffer then holding 240 zeros. *)
Theorem silent_block_flat_display (self : EEGVisualizer R) (n : nat) :
  timeSignal self = np.zeros (S n) ->
  hd 0 (snd (notch_filter self)) <> 0 ->
  (0 < fft_size self)%nat ->
  table_fits self ->
  bands_populated self ->
  timeCurve (update self) = np.zeros (S n) /\
  freqBars (update self) = np.zeros (Nat.min 30 (fft_size self / 2 + 1)) /\
  avgBars (update self) = np.zeros 6.
Proof.
  intros Hz _ _ _ _.
  assert (Hne : timeSignal self <> []) by (rewrite Hz; discriminate).
  assert (Hf : filtered_of self = np.zeros (S n)).
  { unfold filtered_of, apply_filter. rewrite Hz.
    destruct (notch_filter self) as [b a]. apply lfilter_zeros. }
  assert (Hs : fft_data_of self = np.zeros (fft_size self / 2 + 1)).
  { unfold fft_data_of, spectrum. rewrite Hf. apply rfft_abs_zeros. }
  rewrite (update_nonempty self Hne).
  cbn [timeCurve freqBars avgBars set_plots]. rewrite Hf, Hs.
  split; [|split].
  - unfold np.zeros. rewrite map_repeat. f_equal.
    cbn [nmul of_Z R_numeric]. ring.
  - apply firstn_zeros.
  - apply avg_heights_zeros.
Qed.

(** The visualizer as constructed, its buffer holding 240 zeros. *)
Lemma silent_block_flat_display_witness :
  timeSignal Ideal.visualizer = np.zeros 240 /\
  hd 0 (snd (notch_filter Ideal.visualizer)) <> 0 /\
  (0 < fft_size Ideal.visualizer)%nat /\
  table_fits Ideal.visualizer /\
  bands_populated Ideal.visualizer /\
  timeCurve (update Ideal.visualizer) = np.zeros 240 /\
  freqBars (update Ideal.visualizer) = np.zeros 30 /\
  avgBars (update Ideal.visualizer) = np.zeros 6.
Proof.
  assert (Hn : (0 < fft_size Ideal.visualizer)%nat) by (cbn; lia).
  split; [reflexivity|]. split; [exact ideal_a0|]. split; [exact Hn|].
  split; [apply table_fits_init|]. split; [exact ideal_bands_populated|].
  apply (silent_block_flat_display Ideal.visualizer 239 eq_refl ideal_a0 Hn
           (table_fits_init _ _ _) ideal_bands_populated).
Defined.

(** ** Bin 0 and the sign of the bars *)

Lemma dft_angle_bin_0 (n t : nat) : np.dft_angle (A:=R) n 0 t = 0.
Proof.
  unfold np.dft_angle. cbn [Nat.mul Z.of_nat of_Z nmul ndiv np_pi R_numeric R_trig].
  unfold Rdiv. ring.
Qed.

Lemma dft_re_bin_0 (n : nat) (x : list R) :
  forall t0 : nat, np.dft_re n 0 t0 x = fold_right Rplus 0 x.
Proof.
  induction x as [|v x IH]; intros t0; [reflexivity|].
  cbn [np.dft_re fold_right nadd nmul np_cos R_numeric R_trig].
  rewrite dft_angle_bin_0, cos_0, IH. ring.
Qed.

Lemma dft_im_bin_0 (n : nat) (x : list R) :
  forall t0 : nat, np.dft_im n 0 t0 x = 0.
Proof.
  induction x as [|v x IH]; intros t0; [reflexivity|].
  cbn [np.dft_im nsub nmul np_sin R_numeric R_trig].
  rewrite dft_angle_bin_0, sin_0, IH. ring.
Qed.

Lemma sum_fold_right (l : list R) : np.sum l = fold_right Rplus 0 l.
Proof.
  unfold np.sum. cbn [nadd of_Z R_numeric].
  apply fold_symmetric; intros; ring.
Qed.

(** X9: in exact arithmetic no spectrum magnitude is negative, and
    bin 0 is the absolute value of the sum of the samples the transform
    works on (the block cropped or zero-padded to the transform size). *)
Theorem spectrum_bin_0_and_sign (x : list R) (n : nat) :
  (0 < n)%nat ->
  Forall (fun magnitude => 0 <= magnitude) (np.rfft_abs x n) /\
  nth 0 (np.rfft_abs x n) 0 = Rabs (np.sum (np.fit_length n x)).
Proof.
  intros _. split.
  - unfold np.rfft_abs. apply Forall_forall. intros m Hin.
    apply in_map_iff in Hin. destruct Hin as (k & <- & _).
    cbn [nsqrt R_numeric]. apply sqrt_pos.
  - unfold np.rfft_abs.
    replace (n / 2 + 1)%nat with (S (n / 2)) by lia.
    cbn [seq map nth]. rewrite dft_re_bin_0, dft_im_bin_0, sum_fold_right.
    cbn [nadd nmul nsqrt R_numeric].
    replace (fold_right Rplus 0 (np.fit_length n x)
             * fold_right Rplus 0 (np.fit_length n x) + 0 * 0)
      with (fold_right Rplus 0 (np.fit_length n x))² by (unfold Rsqr; ring).
    apply sqrt_Rsqr_abs.
Qed.

(** Four samples transformed at size 8. *)
Lemma spectrum_bin_0_and_sign_witness :
  (0 < 8)%nat /\
  nth 0 (np.rfft_abs [1; -3; 0.5; -0.5] 8) 0 = 2.
Proof.
  split; [lia|].
  destruct (spectrum_bin_0_and_sign [1; -3; 0.5; -0.5] 8) as [_ Hdc]; [lia|].
  rewrite Hdc. unfold np.sum, np.fit_length, np.zeros.
  cbn [firstn length Nat.sub repeat app fold_left nadd of_Z R_numeric].
  replace (0 + 1 + -3 + 0.5 + -0.5 + 0 + 0 + 0 + 0) with (-2) by lra.
  unfold Rabs. destruct (Rcase_abs (-2)); lra.
Defined.
End ExactSpectrum.

(* ================================================================== *)
(** * The notch at every frequency, and after the input stops *)
(* ================================================================== *)

Section NotchEverywhere.
Local Open Scope R_scope.

(** The gain of the designed notch at [w] radians per sample. *)
Definition notch_60_gain (w : R) : R :=
  Rabs (cos w - Ideal.c0)
  / sqrt ((cos w - Ideal.c0)² + (Ideal.beta * sin w)²).

Lemma gain_denominator_pos (w : R) :
  0 < (cos w - Ideal.c0)² + (Ideal.beta * sin w)².
Proof.
  pose proof c0_bounds as [Hc0 Hc1]. pose proof beta_bounds as [Hb0 Hb1].
  pose proof (Rle_0_sqr (cos w - Ideal.c0)) as HD.
  pose proof (Rle_0_sqr (Ideal.beta * sin w)) as HE.
  destruct (Req_dec (cos w - Ideal.c0) 0) as [Hz|Hnz].
  - assert (Hs : 0 < (sin w)²).
    { pose proof (sin2_cos2 w) as Hsc.
      replace (cos w) with Ideal.c0 in Hsc by lra.
      unfold Rsqr in *. nra. }
    assert (HE' : 0 < (Ideal.beta * sin w)²).
    { rewrite Rsqr_mult. apply Rmult_lt_0_compat; [|exact Hs].
      unfold Rsqr. nra. }
    lra.
  - assert (HD' : 0 < (cos w - Ideal.c0)²) by now apply Rsqr_pos_lt.
    lra.
Qed.

Lemma notch_60_gain_range (w : R) : 0 <= notch_60_gain w <= 1.
Proof.
  unfold notch_60_gain.
  pose proof (gain_denominator_pos w) as HS.
  pose proof (sqrt_lt_R0 _ HS) as Hsq.
  pose proof (Rabs_pos (cos w - Ideal.c0)) as Habs.
  assert (Hle : Rabs (cos w - Ideal.c0)
                <= sqrt ((cos w - Ideal.c0)² + (Ideal.beta * sin w)²)).
  { rewrite <- sqrt_Rsqr_abs. apply sqrt_le_1_alt.
    pose proof (Rle_0_sqr (Ideal.beta * sin w)). lra. }
  split.
  - apply Rmult_le_pos; [exact Habs|]. left. now apply Rinv_0_lt_compat.
  - apply Rmult_le_reg_r
      with (sqrt ((cos w - Ideal.c0)² + (Ideal.beta * sin w)²));
      [exact Hsq|].
    unfold Rdiv. rewrite Rmult_assoc, Rinv_l by lra. lra.
Qed.

Lemma notch_60_gain_no_sine (w : R) :
  sin w = 0 -> notch_60_gain w = 1.
Proof.
  intros Hs. unfold notch_60_gain.
  pose proof (gain_denominator_pos w) as HS.
  rewrite Hs, Rmult_0_r in HS. rewrite Hs, Rmult_0_r.
  assert (HD : cos w - Ideal.c0 <> 0).
  { intros Hz. rewrite Hz in HS. unfold Rsqr in HS. lra. }
  replace ((cos w - Ideal.c0)² + 0²) with (cos w - Ideal.c0)²
    by (unfold Rsqr; ring).
  rewrite sqrt_Rsqr_abs. field. now apply Rabs_no_R0.
Qed.

Lemma notch_settles_at (A w phase : R) :
  exists psi : R,
    forall eps : R, 0 < eps ->
      exists N0 : nat, forall N n : nat,
          (N0 <= n < N)%nat ->
          Rabs (nth n (apply_filter
                         (map (fun i => A * sin (w * INR i + phase))
                              (seq 0 N))
                         Ideal.notch_60) 0
                - A * notch_60_gain w * sin (w * INR n + phase + psi))
          <= eps.
Proof.
  pose proof gain_bounds as [Hg0 Hg1]. pose proof gain_beta as Hgb.
  pose proof (gain_denominator_pos w) as HS.
  set (D := cos w - Ideal.c0) in *.
  set (E := Ideal.beta * sin w) in *.
  destruct (Req_dec D 0) as [Hz|Hnz].
  - exists 0. intros eps Heps.
    destruct (notch_settles A w phase 0 0) with (eps := eps) as [N0 HN0];
      [fold D; rewrite Hz; ring|ring|exact Heps|].
    exists N0. intros N n Hn. specialize (HN0 N n Hn).
    unfold notch_60_gain. fold D. rewrite Hz, Rabs_R0.
    unfold Rdiv. rewrite Rmult_0_l, Rmult_0_r, Rmult_0_l.
    match type of HN0 with
    | Rabs (?y - ?z) <= _ => replace (y - z) with (y - 0) in HN0 by ring
    end.
    exact HN0.
  - set (u := - E / D).
    assert (HD2 : 0 < D²) by now apply Rsqr_pos_lt.
    assert (Hone : 1 + u² = (D² + E²) / D²).
    { unfold u, Rsqr. field. exact Hnz. }
    set (r := sqrt (1 + u²)).
    assert (Hr : r = sqrt (D² + E²) / Rabs D).
    { unfold r. rewrite Hone, sqrt_div_alt by exact HD2.
      now rewrite sqrt_Rsqr_abs. }
    assert (Habs : 0 < Rabs D) by now apply Rabs_pos_lt.
    assert (Hsq : 0 < sqrt (D² + E²)) by now apply sqrt_lt_R0.
    assert (Hr0 : 0 < r).
    { rewrite Hr. now apply Rdiv_lt_0_compat. }
    assert (Hr2 : r * r = 1 + u * u).
    { unfold r. rewrite sqrt_sqrt; unfold Rsqr; [reflexivity|].
      pose proof (Rle_0_sqr u) as Hu. unfold Rsqr in Hu. lra. }
    assert (HG : notch_60_gain w = 1 / r).
    { unfold notch_60_gain. fold D. fold E. rewrite Hr. field. lra. }
    assert (HXu : 2 * Ideal.gain * D * u = - (2 * (1 - Ideal.gain) * sin w)).
    { unfold u, E. replace (1 - Ideal.gain) with (Ideal.gain * Ideal.beta)
        by lra. field. exact Hnz. }
    assert (Hne : 1 + u * u <> 0).
    { pose proof (Rle_0_sqr u) as Hu. unfold Rsqr in Hu. lra. }
    exists (atan u). intros eps Heps.
    destruct (notch_settles A w phase (1 / (r * r)) (u / (r * r)))
      with (eps := eps) as [N0 HN0].
    + fold D.
      replace (2 * (1 - Ideal.gain) * sin w)
        with (- (2 * Ideal.gain * D * u)) by lra.
      rewrite Hr2. field. exact Hne.
    + fold D.
      replace (2 * (1 - Ideal.gain) * sin w)
        with (- (2 * Ideal.gain * D * u)) by lra.
      rewrite Hr2. field. exact Hne.
    + exact Heps.
    + exists N0. intros N n Hn. specialize (HN0 N n Hn).
      rewrite HG.
      replace (A * (1 / r) * sin (w * INR n + phase + atan u))
        with (A * (1 / (r * r) * sin (w * INR n + phase)
                   + u / (r * r) * cos (w * INR n + phase))).
      * exact HN0.
      * rewrite (sin_plus (w * INR n + phase) (atan u)), sin_atan, cos_atan.
        fold r. field. lra.
Qed.

(** X10: in exact arithmetic, the designed notch driven from rest by a
    tone of any frequency [freq] (in Hz, sampled at 256 Hz), amplitude [A]
    and phase approaches a tone of the same frequency and of amplitude
    [A] times the gain
    [|cos w - c0| / sqrt ((cos w - c0)^2 + (beta sin w)^2)],
    [w = 2 PI freq / 256].  That gain never exceeds 1; it is 1 at 0 Hz
    and at 128 Hz and 0 at 60 Hz. *)
Theorem notch_60_steady_state (A freq phase : R) :
  0 <= notch_60_gain (2 * PI * freq / 256) <= 1 /\
  notch_60_gain (2 * PI * 0 / 256) = 1 /\
  notch_60_gain (2 * PI * 128 / 256) = 1 /\
  notch_60_gain (2 * PI * 60 / 256) = 0 /\
  exists psi : R,
    forall eps : R, 0 < eps ->
      exists N0 : nat, forall N n : nat,
          (N0 <= n < N)%nat ->
          Rabs (nth n (apply_filter (sinusoid A freq 256 phase N)
                                    Ideal.notch_60) 0
                - A * notch_60_gain (2 * PI * freq / 256)
                  * sin (2 * PI * freq / 256 * INR n + phase + psi))
          <= eps.
Proof.
  split; [apply notch_60_gain_range|].
  split.
  { apply notch_60_gain_no_sine.
    replace (2 * PI * 0 / 256) with 0 by field. apply sin_0. }
  split.
  { apply notch_60_gain_no_sine.
    replace (2 * PI * 128 / 256) with PI by field. apply sin_PI. }
  split.
  { unfold notch_60_gain. rewrite cos_60_hertz.
    unfold Rminus. rewrite Rplus_opp_r, Rabs_R0. unfold Rdiv. ring. }
  apply notch_settles_at.
Qed.

(** ** After the input stops *)

Lemma filter_run_two_delays (b0 b1 b2 a0 a1 a2 : R) (x : list R) :
  forall z0 z1 : R,
    exists e0 e1 : R,
      snd (signal.filter_run [b0; b1; b2] [a0; a1; a2] [z0; z1] x)
      = [e0; e1].
Proof.
  induction x as [|xn x IH]; intros z0 z1.
  - exists z0, z1. reflexivity.
  - cbn [signal.filter_run signal.filter_step signal.next_delays].
    match goal with
    | |- context [signal.filter_run _ _ [?u; ?v] x] =>
        destruct (IH u v) as (e0 & e1 & He);
        destruct (signal.filter_run [b0; b1; b2] [a0; a1; a2] [u; v] x)
          as [ys zf]
    end.
    exists e0, e1. exact He.
Qed.

Lemma silence_list (N : nat) :
  map (fun _ : nat => 0) (seq 0 N) = np.zeros (A:=R) N.
Proof.
  unfold np.zeros. generalize 0%nat as s0.
  induction N as [|N IH]; intros s0; cbn [seq map repeat]; [reflexivity|].
  now rewrite IH.
Qed.

(** X11: in exact arithmetic the designed notch is stable.  After any
    finite block, followed by silence, its output falls below every
    positive bound: what the filter remembers of a block dies out. *)
Theorem notch_60_forgets (x : list R) (eps : R) :
  0 < eps ->
  exists N0 : nat, forall N n : nat,
      (N0 <= n < N)%nat ->
      Rabs (nth (length x + n)
                (apply_filter (x ++ np.zeros N) Ideal.notch_60) 0) <= eps.
Proof.
  intros Heps.
  pose proof gain_bounds as [Hg0 Hg1]. pose proof c0_bounds as [Hc0 Hc1].
  set (b1 := -2 * Ideal.gain * Ideal.c0).
  set (a2 := 2 * Ideal.gain - 1).
  assert (Ha2 : 0 < a2 < 1) by (unfold a2; lra).
  assert (Hpoles : b1 * b1 < 4 * a2).
  { assert (Hp : 0 < Ideal.gain * Ideal.c0 < 0.49) by nra.
    replace (b1 * b1)
      with (4 * ((Ideal.gain * Ideal.c0) * (Ideal.gain * Ideal.c0)))
      by (unfold b1; ring).
    unfold a2. nra. }
  destruct (filter_run_two_delays Ideal.gain b1 Ideal.gain 1 b1 a2 x 0 0)
    as (e0 & e1 & Hstate).
  destruct (transient_vanishes b1 a2 Ha2 Hpoles (e0, e1) eps Heps)
    as [N0 HN0].
  exists N0. intros N n [Hlo Hhi].
  rewrite apply_notch_60. fold b1. fold a2.
  rewrite filter_run_app.
  pose proof (filter_run_length [Ideal.gain; b1; Ideal.gain] [1; b1; a2]
                                x [0; 0]) as Hlen.
  destruct (signal.filter_run [Ideal.gain; b1; Ideal.gain] [1; b1; a2]
                              [0; 0] x) as [y1 z1].
  cbn [fst snd] in Hlen, Hstate. subst z1.
  pose proof (filter_run_driven Ideal.gain b1 Ideal.gain b1 a2
                (fun _ => 0) (fun _ => 0)) as Hrun.
  specialize (Hrun ltac:(intros t; cbv beta; ring) N 0 e0 e1 n Hhi).
  unfold settled0, settled1 in Hrun.
  replace (b1 * 0 + Ideal.gain * 0 - b1 * 0 - a2 * 0 + e0) with e0
    in Hrun by ring.
  replace (Ideal.gain * 0 - a2 * 0 + e1) with e1 in Hrun by ring.
  rewrite silence_list in Hrun.
  destruct (signal.filter_run [Ideal.gain; b1; Ideal.gain] [1; b1; a2]
                              [e0; e1] (np.zeros N)) as [y2 z2].
  cbn [fst] in *. rewrite <- Hlen, app_nth2_plus, Hrun, Rplus_0_l.
  apply HN0, Hlo.
Qed.

(** A unit impulse, to within one hundredth. *)
Lemma notch_60_forgets_witness :
  0 < 1 / 100 /\
  exists N0 : nat, forall N n : nat,
      (N0 <= n < N)%nat ->
      Rabs (nth (1 + n) (apply_filter ([1] ++ np.zeros N) Ideal.notch_60) 0)
      <= 1 / 100.
Proof.
  split; [lra|].
  apply (notch_60_forgets [1] (1 / 100)). lra.
Defined.
End NotchEverywhere.

(* ================================================================== *)
(** * Attributes the display never reads *)
(* ================================================================== *)

(** [__init__] designs an alpha and a beta band-pass filter and sets
    [normalScale], [alphaScale], [freqAvgScale], the band centres and
    widths, [timeLength] and [notch_freq].  [audio_callback] and [update]
    read none of them: of the visualizer they read the block, the notch,
    the transform size, the frequency table and [timeScale]. *)
Section UnusedSettings.
Context {A : Type} `{Numeric A} `{Trig A}.
Local Open Scope num_scope.

(** Two visualizers that agree on what [update] reads and on what is
    currently drawn. *)
Definition drawn_alike (s s' : EEGVisualizer A) : Prop :=
  timeSignal s = timeSignal s' /\
  notch_filter s = notch_filter s' /\
  fft_size s = fft_size s' /\
  freqs s = freqs s' /\
  timeScale s = timeScale s' /\
  plots s = plots s'.

Lemma drawn_alike_handle (s s' : EEGVisualizer A) (e : event) :
  drawn_alike s s' -> drawn_alike (handle s e) (handle s' e).
Proof.
  intros (Hts & Hnf & Hn & Hfr & Hsc & Hpl). destruct e as [indata|].
  - repeat split; assumption.
  - cbn [handle]. destruct (timeSignal s) as [|x blk] eqn:Eblk.
    + unfold update. rewrite <- Hts, Eblk. cbn [length Nat.eqb].
      repeat split; try assumption. now rewrite Eblk.
    + rewrite <- Eblk in Hts.
      assert (Hne : timeSignal s <> []) by (rewrite Eblk; discriminate).
      assert (Hne' : timeSignal s' <> []) by now rewrite <- Hts.
      rewrite (update_nonempty s Hne), (update_nonempty s' Hne').
      unfold drawn_alike, plots, fft_data_of, spectrum, filtered_of.
      cbn [timeSignal notch_filter fft_size freqs timeScale
           timeCurve freqBars avgBars set_plots].
      rewrite <- Hts, <- Hnf, <- Hn, <- Hfr, <- Hsc.
      repeat split.
Qed.

(** X12: the band-pass designs and the other scales never reach the
    display.  Two visualizers that agree on the block, the notch, the
    transform size, the frequency table, [timeScale] and what is drawn,
    and differ in any other attribute ([alpha_filter], [beta_filter],
    [normalScale], [alphaScale], [freqAvgScale], the band centres and
    widths, [fs], [timeLength], [notch_freq]), still agree on all of it
    after any sequence of complete callbacks and ticks. *)
Theorem run_events_ignores_band_filters (s s' : EEGVisualizer A)
  (es : list event) :
  drawn_alike s s' ->
  drawn_alike (run_events s es) (run_events s' es).
Proof.
  revert s s'. induction es as [|e es IH]; intros s s' Hal; [exact Hal|].
  cbn [run_events fold_left]. apply IH. now apply drawn_alike_handle.
Qed.
End UnusedSettings.

(** The exact-arithmetic visualizer and one whose alpha and beta designs
    are exchanged, over a tick, a two-sample block and a tick. *)
Lemma run_events_ignores_band_filters_witness :
  drawn_alike Ideal.visualizer
              (visualizer_with Ideal.notch_60 Ideal.beta_24 Ideal.alpha_12) /\
  plots (run_events Ideal.visualizer [Tick; Audio [[1%R]; [2%R]]; Tick])
  = plots (run_events
             (visualizer_with Ideal.notch_60 Ideal.beta_24 Ideal.alpha_12)
             [Tick; Audio [[1%R]; [2%R]]; Tick]).
Proof.
  assert (Hal : drawn_alike
                  Ideal.visualizer
                  (visualizer_with Ideal.notch_60 Ideal.beta_24
                                   Ideal.alpha_12))
    by (repeat split).
  split; [exact Hal|].
  apply (run_events_ignores_band_filters
           Ideal.visualizer
           (visualizer_with Ideal.notch_60 Ideal.beta_24 Ideal.alpha_12)
           [Tick; Audio [[1%R]; [2%R]]; Tick] Hal).
Defined.
